(** * py-ratelimiter: a shallow embedding of [rate_limiter.py]

    The module wraps an HTTP session with a per-endpoint rate limiting
    strategy and a bounded retry loop with exponential backoff.  The
    embedding follows the Python text statement by statement:

    - Python objects that are mutated and compared by identity (the
      strategy instances) live in a store, addressed by location;
    - the client's attributes [endpoint_limits] and [rate_limit_strategy]
      are fields of the state every method runs in;
    - [time.time], [time.sleep] and [session.request] are primitives over
      an explicit clock, an oracle for the transport and a log of the
      effects performed, so that claims about call order and call counts
      are statements about the log;
    - exceptions are a result constructor threaded by a small state and
      error monad.

    Time stamps are rational numbers: the rounding of Python floats is not
    modelled. *)

From Stdlib Require Import ZArith QArith Lqa Lia.
From stdpp Require Import gmap strings list.

Open Scope Z_scope.

(** ** Values, exceptions, objects *)

Definition loc := nat.

(** The Python values that can be handed over as a [rate_limit]. *)
Inductive value : Type :=
| VNone
| VBool (b : bool)
| VInt (z : Z)
| VFloat (q : Q)
| VStr (s : string)
| VRef (l : loc).

Abbreviation kwargs := (list (string * value)).

Inductive exn : Type :=
| RequestException (kind : string)
| TypeError
| ValueError
| AttributeError
| OtherException (kind : string).

Inductive result (A : Type) : Type :=
| Ok (a : A)
| Raise (e : exn).
Arguments Ok {A} a.
Arguments Raise {A} e.

Record Response : Type := { status_code : Z; reason : string }.

(** The two concrete subclasses of [BaseRateLimitedRequest]. *)
Inductive strategy_class : Type :=
| LastRequestRateLimitedRequest
| DefaultRateLimitedRequest.

(** An instance of one of them; [DefaultRateLimitedRequest.__init__]
    stores nothing. *)
Inductive obj : Type :=
| LastRequest_obj (rate_limit : value) (last_request_time : Q)
| Default_obj.

Definition class_of (o : obj) : strategy_class :=
  match o with
  | LastRequest_obj _ _ => LastRequestRateLimitedRequest
  | Default_obj => DefaultRateLimitedRequest
  end.

(** ** Effects *)

(** The two call sites of [time.sleep]. *)
Inductive sleep_site : Type := RateLimitSleep | BackoffSleep.

Inductive event : Type :=
| EvWait (l : loc)
| EvSleep (site : sleep_site) (d : Q)
| EvSend (i : nat) (method url : string) (kw : kwargs).

Inductive send_outcome : Type :=
| Responds (r : Response)
| Fails (e : exn).

(** What the program does not control: the outcome of the [i]-th call of
    [session.request], and the time that passes at the [k]-th primitive
    step beyond what was asked for. *)
Record Env : Type := {
  transport : nat -> string -> string -> kwargs -> send_outcome;
  lag : nat -> Q
}.

Record State : Type := {
  endpoint_limits : gmap string loc;
  rate_limit_strategy : strategy_class;
  heap : list obj;
  now : Q;
  ticks : nat;
  sent : nat;
  trace : list event
}.

Definition with_heap (h : list obj) (s : State) : State :=
  {| endpoint_limits := endpoint_limits s;
     rate_limit_strategy := rate_limit_strategy s;
     heap := h; now := now s; ticks := ticks s; sent := sent s;
     trace := trace s |}.

Definition with_clock (t : Q) (k : nat) (s : State) : State :=
  {| endpoint_limits := endpoint_limits s;
     rate_limit_strategy := rate_limit_strategy s;
     heap := heap s; now := t; ticks := k; sent := sent s;
     trace := trace s |}.

Definition with_sent (n : nat) (s : State) : State :=
  {| endpoint_limits := endpoint_limits s;
     rate_limit_strategy := rate_limit_strategy s;
     heap := heap s; now := now s; ticks := ticks s; sent := n;
     trace := trace s |}.

Definition with_trace (tr : list event) (s : State) : State :=
  {| endpoint_limits := endpoint_limits s;
     rate_limit_strategy := rate_limit_strategy s;
     heap := heap s; now := now s; ticks := ticks s; sent := sent s;
     trace := tr |}.

(** ** The monad *)

Definition M (A : Type) : Type := State -> result A * State.

Definition ret {A} (a : A) : M A := fun s => (Ok a, s).

Definition bind {A B} (m : M A) (k : A -> M B) : M B :=
  fun s =>
    match m s with
    | (Ok a, s') => k a s'
    | (Raise e, s') => (Raise e, s')
    end.

Definition raise {A} (e : exn) : M A := fun s => (Raise e, s).

Definition gets {A} (f : State -> A) : M A := fun s => (Ok (f s), s).

Definition modify (f : State -> State) : M unit := fun s => (Ok tt, f s).

(** [try: body  except <class> as e: handler e]; an exception outside the
    class passes through. *)
Definition try_except {A} (body : M A) (caught : exn -> bool)
    (handler : exn -> M A) : M A :=
  fun s =>
    match body s with
    | (Ok a, s') => (Ok a, s')
    | (Raise e, s') => if caught e then handler e s' else (Raise e, s')
    end.

Notation "x <- c1 ;; c2" := (bind c1 (fun x => c2))
  (at level 100, c1 at next level, right associativity).
Notation "c1 ;; c2" := (bind c1 (fun _ => c2))
  (at level 100, right associativity).

Definition log (e : event) : M unit :=
  modify (fun s => with_trace (trace s ++ [e]) s).

(** ** Python's view of values *)

(** [bool(v)]: instances of the strategy classes define neither
    [__bool__] nor [__len__]. *)
Definition truthy (v : value) : bool :=
  match v with
  | VNone => false
  | VBool b => b
  | VInt z => negb (z =? 0)
  | VFloat q => negb (Qeq_bool q 0)
  | VStr s => negb (String.eqb s "")
  | VRef _ => true
  end.

(** The number a value denotes in arithmetic and comparisons with a float,
    if any ([bool] is a subclass of [int]). *)
Definition as_number (v : value) : option Q :=
  match v with
  | VBool b => Some (if b then 1%Q else 0%Q)
  | VInt z => Some (inject_Z z)
  | VFloat q => Some q
  | VNone | VStr _ | VRef _ => None
  end.

Definition Qlt_bool (a b : Q) : bool := negb (Qle_bool b a).

(** [isinstance(v, int)] *)
Definition isinstance_int (v : value) : bool :=
  match v with
  | VBool _ | VInt _ => true
  | _ => false
  end.

(** [isinstance(v, BaseRateLimitedRequest)] *)
Definition isinstance_BaseRateLimitedRequest (v : value) : M bool :=
  match v with
  | VRef l => h <- gets heap ;; ret (bool_decide (is_Some (h !! l)))
  | _ => ret false
  end.

Section Program.

Variable env : Env.

(** ** Primitives: [time] and the session *)

Definition tick : M unit :=
  modify (fun s => with_clock (now s + lag env (ticks s))%Q (S (ticks s)) s).

Definition time_time : M Q := tick ;; gets now.

Definition time_sleep (site : sleep_site) (d : Q) : M unit :=
  if Qlt_bool d 0 then raise ValueError
  else
    log (EvSleep site d) ;;
    tick ;;
    modify (fun s => with_clock (now s + d)%Q (ticks s) s).

(** [self.session.request(method, url, **kwargs)] *)
Definition session_request (method url : string) (kw : kwargs) : M Response :=
  i <- gets sent ;;
  log (EvSend i method url kw) ;;
  modify (fun s => with_sent (S i) s) ;;
  tick ;;
  match transport env i method url kw with
  | Responds r => ret r
  | Fails e => raise e
  end.

(** ** The strategy classes *)

(** The attributes [cls.__init__(self, rate_limit)] sets. *)
Definition init (cls : strategy_class) (rate_limit : value) : obj :=
  match cls with
  | LastRequestRateLimitedRequest => LastRequest_obj rate_limit 0
  | DefaultRateLimitedRequest => Default_obj
  end.

(** [cls(rate_limit)]: allocate an instance and run [__init__]. *)
Definition new (cls : strategy_class) (rate_limit : value) : M loc :=
  h <- gets heap ;;
  modify (with_heap (h ++ [init cls rate_limit])) ;;
  ret (length h).

Definition LastRequestRateLimitedRequest_wait (self : loc)
    (rate_limit : value) (last_request_time : Q) : M unit :=
  current_time <- time_time ;;
  let elapsed := (current_time - last_request_time)%Q in
  match as_number rate_limit with
  | None => raise TypeError
  | Some limit =>
      (if Qlt_bool elapsed limit
       then time_sleep RateLimitSleep (limit - elapsed)%Q
       else ret tt) ;;
      t <- time_time ;;
      modify (fun s => with_heap (<[self := LastRequest_obj rate_limit t]> (heap s)) s)
  end.

Definition DefaultRateLimitedRequest_wait (self : loc) : M unit := ret tt.

(** [limiter.wait()], dispatched on the class of the receiver. *)
Definition wait (self : loc) : M unit :=
  log (EvWait self) ;;
  h <- gets heap ;;
  match h !! self with
  | Some (LastRequest_obj rate_limit last_request_time) =>
      LastRequestRateLimitedRequest_wait self rate_limit last_request_time
  | Some Default_obj => DefaultRateLimitedRequest_wait self
  | None => raise AttributeError
  end.

(** ** [RateLimiter] *)

Definition _get_request_group (url : string) : M (option loc) :=
  gets (fun s => endpoint_limits s !! url).

Definition configure_limit (url : string) (rate_limit : value) : M unit :=
  if isinstance_int rate_limit then
    cls <- gets rate_limit_strategy ;;
    limiter <- new cls rate_limit ;;
    ret tt
  else
    b <- isinstance_BaseRateLimitedRequest rate_limit ;;
    if b then
      let limiter := rate_limit in
      ret tt
    else ret tt.

(** The first three statements of [request]: the limiter the loop uses. *)
Definition resolve_limiter (url : string) (rate_limit : value) : M loc :=
  limiter <- _get_request_group url ;;
  limiter <- (if negb (bool_decide (is_Some limiter)) && truthy rate_limit
              then
                cls <- gets rate_limit_strategy ;;
                l <- new cls rate_limit ;;
                ret (Some l)
              else ret limiter) ;;
  match limiter with
  | Some l => ret l
  | None => new DefaultRateLimitedRequest VNone
  end.

(** One pass through the body of the [for] loop; [Some v] is [return v],
    [None] falls through to the next iteration. *)
Definition attempt (limiter : loc) (method url : string) (kw : kwargs)
    (retries retry : Z) : M (option Response) :=
  wait limiter ;;
  try_except
    (r <- session_request method url kw ;; ret (Some r))
    (fun e => match e with RequestException _ => true | _ => false end)
    (fun e =>
       if retry =? retries - 1 then raise e
       else time_sleep BackoffSleep (inject_Z (2 ^ retry)) ;; ret None).

(** [for retry in range(start, start + n): body]; a loop that runs to its
    end makes the function return [None]. *)
Fixpoint for_range (n : nat) (retry : Z)
    (body : Z -> M (option Response)) : M (option Response) :=
  match n with
  | O => ret None
  | S n' =>
      r <- body retry ;;
      match r with
      | Some v => ret (Some v)
      | None => for_range n' (retry + 1) body
      end
  end.

Definition request (method url : string) (rate_limit : value) (retries : Z)
    (kw : kwargs) : M (option Response) :=
  limiter <- resolve_limiter url rate_limit ;;
  for_range (Z.to_nat retries) 0 (attempt limiter method url kw retries).

(** The verbs forward to [request]; Python binds a [rate_limit] or a
    [retries] among the keyword arguments to the parameters of that name. *)
Definition get (url : string) (rate_limit : value) (retries : Z) (kw : kwargs) :=
  request "GET" url rate_limit retries kw.

Definition post (url : string) (rate_limit : value) (retries : Z) (kw : kwargs) :=
  request "POST" url rate_limit retries kw.

Definition put (url : string) (rate_limit : value) (retries : Z) (kw : kwargs) :=
  request "PUT" url rate_limit retries kw.

Definition delete (url : string) (rate_limit : value) (retries : Z) (kw : kwargs) :=
  request "DELETE" url rate_limit retries kw.

End Program.

(** [RateLimiter(rate_limit_strategy)] at time [t0], with room for the
    strategy instances the caller already holds. *)
Definition RateLimiter (cls : strategy_class) (objs : list obj) (t0 : Q) : State :=
  {| endpoint_limits := ∅; rate_limit_strategy := cls; heap := objs;
     now := t0; ticks := 0; sent := 0; trace := [] |}.

(** * The vocabulary of the claims *)

(** ** Reading the log *)

Definition is_rate_sleep (e : event) : Prop :=
  match e with EvSleep RateLimitSleep _ => True | _ => False end.

Definition is_send (e : event) : bool :=
  match e with EvSend _ _ _ _ => true | _ => false end.

(** The transport attempts of a log. *)
Definition sends (evs : list event) : list event := List.filter is_send evs.

(** The durations of the backoff sleeps of a log, in order. *)
Fixpoint backoffs (evs : list event) : list Q :=
  match evs with
  | [] => []
  | EvSleep BackoffSleep d :: r => d :: backoffs r
  | _ :: r => backoffs r
  end.

(** The objects [wait] was called on, in order. *)
Fixpoint waits (evs : list event) : list loc :=
  match evs with
  | [] => []
  | EvWait l :: r => l :: waits r
  | _ :: r => waits r
  end.

Fixpoint Qsum (l : list Q) : Q :=
  match l with
  | [] => 0
  | d :: r => d + Qsum r
  end.

(** The backoff durations of the attempts [retry .. retry + n - 1]. *)
Definition backoff_schedule (retry : Z) (n : nat) : list Q :=
  List.map (fun j => inject_Z (2 ^ (retry + Z.of_nat j))) (seq 0 n).

(** ** What makes [wait] safe *)

(** An instance whose [wait] cannot raise: the interval of a
    [LastRequestRateLimitedRequest] is a number. *)
Definition well_typed (o : obj) : Prop :=
  match o with
  | LastRequest_obj rate_limit _ => is_Some (as_number rate_limit)
  | Default_obj => True
  end.

Definition limiter_ok (s : State) (l : loc) : Prop :=
  exists o, heap s !! l = Some o /\ well_typed o.

(** The arguments of [request] for which the limiter it resolves has a
    [wait] that cannot raise: a registered instance is well typed, and an
    interval that [LastRequestRateLimitedRequest] will compare with a time
    is a number. *)
Definition request_well_typed (s : State) (url : string) (rate_limit : value) : Prop :=
  match endpoint_limits s !! url with
  | Some l => limiter_ok s l
  | None =>
      truthy rate_limit = true ->
      rate_limit_strategy s = LastRequestRateLimitedRequest ->
      is_Some (as_number rate_limit)
  end.

(** How one attempt ends once the transport has been called for the
    [i]-th time, and what it logs from the send on. *)
Variant attempt_case (env : Env) (method url : string) (kw : kwargs)
    (retries : Z) (i : nat) (retry : Z) :
    result (option Response) -> list event -> Prop :=
| attempt_responds r :
    transport env i method url kw = Responds r ->
    attempt_case env method url kw retries i retry
      (Ok (Some r)) [EvSend i method url kw]
| attempt_propagates e :
    transport env i method url kw = Fails e ->
    (forall k, e = RequestException k -> retry = retries - 1) ->
    attempt_case env method url kw retries i retry
      (Raise e) [EvSend i method url kw]
| attempt_backs_off k :
    transport env i method url kw = Fails (RequestException k) ->
    retry <> retries - 1 ->
    attempt_case env method url kw retries i retry (Ok None)
      [EvSend i method url kw; EvSleep BackoffSleep (inject_Z (2 ^ retry))].

(** The resolution order as the specification words it, to compare with
    [resolve_limiter]: the registered limiter if there is one; otherwise,
    as soon as a [rate_limit] was passed (anything but [None]), a fresh
    instance of the configured class built from it; otherwise the no-op
    strategy. *)
Definition resolve_limiter_as_specified (url : string) (rate_limit : value) : M loc :=
  limiter <- _get_request_group url ;;
  match limiter with
  | Some l => ret l
  | None =>
      match rate_limit with
      | VNone => new DefaultRateLimitedRequest VNone
      | _ => cls <- gets rate_limit_strategy ;; new cls rate_limit
      end
  end.

(** A client as [RateLimiter(rate_limit_strategy=LastRequestRateLimitedRequest)]
    builds it, with one strategy instance already in the caller's hands. *)
Definition fresh_client : State :=
  RateLimiter LastRequestRateLimitedRequest [LastRequest_obj (VInt 2) 0] 100.

Definition example_url : string := "https://api.example.com/x".

(** ** Relations between the state before and after a call *)

(** The durations of all the sleeps of a log, whatever their call site. *)
Fixpoint sleep_durations (evs : list event) : list Q :=
  match evs with
  | [] => []
  | EvSleep _ d :: r => d :: sleep_durations r
  | _ :: r => sleep_durations r
  end.

(** The client's own attributes are what they were. *)
Definition same_registry (s s1 : State) : Prop :=
  endpoint_limits s1 = endpoint_limits s /\
  rate_limit_strategy s1 = rate_limit_strategy s.

(** The log grew by sleeps of non-negative durations (and other events),
    and the clock moved on by their sum at least. *)
Definition elapses (s s1 : State) : Prop :=
  exists evs,
    trace s1 = trace s ++ evs /\
    Forall (fun d => 0 <= d)%Q (sleep_durations evs) /\
    (now s + Qsum (sleep_durations evs) <= now s1)%Q.

(** A computation whose final state is related to its initial state,
    however it ends. *)
Definition respects (R : State -> State -> Prop) {A} (m : M A) : Prop :=
  forall s, R s (snd (m s)).

(** A call that sends nothing but [method], [url] and [kw], numbered from
    the send counter it found, and leaves the counter at the next number. *)
Definition carries (method url : string) (kw : kwargs)
    (m : M (option Response)) (s : State) : Prop :=
  exists res s1 evs,
    m s = (res, s1) /\
    trace s1 = trace s ++ evs /\
    sent s1 = (sent s + length (sends evs))%nat /\
    sends evs =
      List.map (fun j => EvSend (sent s + j) method url kw)
        (seq 0 (length (sends evs))).

(** ** Concrete clients and transports *)

Definition not_found : Response := {| status_code := 404; reason := "Not Found" |}.

(** A transport that is down, with a clock on which every step costs a
    tenth of a time unit. *)
Definition always_down : Env :=
  {| transport := fun _ _ _ _ => Fails (RequestException "ConnectionError");
     lag := fun _ => (1 # 10)%Q |}.

(** A transport that times out twice and then answers 404. *)
Definition third_time_lucky : Env :=
  {| transport := fun i _ _ _ =>
       if (i <? 2)%nat then Fails (RequestException "Timeout")
       else Responds not_found;
     lag := fun _ => 0%Q |}.

(** A transport that answers 200 at once. *)
Definition always_up : Env :=
  {| transport := fun _ _ _ _ => Responds {| status_code := 200; reason := "OK" |};
     lag := fun _ => 0%Q |}.

(** A transport that fails outside the [requests] exception hierarchy. *)
Definition broken_stack : Env :=
  {| transport := fun _ _ _ _ => Fails (OtherException "KeyboardInterrupt");
     lag := fun _ => 0%Q |}.

(** A client as [RateLimiter()] builds it. *)
Definition default_client : State :=
  RateLimiter DefaultRateLimitedRequest [] 100.

(** A client whose registry holds a two-unit interval for [example_url]. *)
Definition registered_client : State :=
  {| endpoint_limits := {[ example_url := 0%nat ]};
     rate_limit_strategy := DefaultRateLimitedRequest;
     heap := [LastRequest_obj (VInt 2) 0];
     now := 100; ticks := 0; sent := 0; trace := [] |}.

(** * Properties *)

#[local] Arguments Qplus : simpl never.
#[local] Arguments Qminus : simpl never.
#[local] Arguments Qle_bool : simpl never.
#[local] Arguments inject_Z : simpl never.

(** ** Comparisons on time stamps *)

Lemma Qlt_bool_true (a b : Q) : Qlt_bool a b = true <-> (a < b)%Q.
Proof.
  unfold Qlt_bool. rewrite negb_true_iff.
  destruct (Qle_bool b a) eqn:E.
  - apply Qle_bool_iff in E. split; [discriminate | intros H; lra].
  - split; [intros _ | reflexivity].
    apply Qnot_le_lt. intros H. apply Qle_bool_iff in H. congruence.
Qed.

Lemma Qlt_bool_false (a b : Q) : Qlt_bool a b = false <-> (b <= a)%Q.
Proof.
  unfold Qlt_bool. rewrite negb_false_iff. apply Qle_bool_iff.
Qed.

Lemma inject_Z_pow2_nonneg (k : Z) : (0 <= inject_Z (2 ^ k))%Q.
Proof.
  change 0%Q with (inject_Z 0). rewrite <- Zle_Qle. apply Z.pow_nonneg. lia.
Qed.

Lemma backoff_not_negative (k : Z) : Qlt_bool (inject_Z (2 ^ k)) 0 = false.
Proof. apply Qlt_bool_false, inject_Z_pow2_nonneg. Qed.

Lemma backoffs_app (a b : list event) : backoffs (a ++ b) = backoffs a ++ backoffs b.
Proof.
  induction a as [|[l|[|] d|i m u k] a IH]; simpl; rewrite ?IH; reflexivity.
Qed.

Lemma waits_app (a b : list event) : waits (a ++ b) = waits a ++ waits b.
Proof.
  induction a as [|[l|site d|i m u k] a IH]; simpl; rewrite ?IH; reflexivity.
Qed.

Lemma sends_app (a b : list event) : sends (a ++ b) = sends a ++ sends b.
Proof. apply List.filter_app. Qed.

Lemma rate_sleeps_no_send (ws : list event) :
  Forall is_rate_sleep ws -> sends ws = [] /\ backoffs ws = [] /\ waits ws = [].
Proof.
  induction 1 as [|[l|[|] d|i m u k] ws H _ IH]; simpl in *; try tauto.
Qed.

Lemma sends_middle (pre post : list event) (e : event) :
  is_send e = true -> sends (pre ++ e :: post) <> [].
Proof.
  intros He. rewrite sends_app. unfold sends at 2. simpl. rewrite He.
  destruct (sends pre); discriminate.
Qed.

(** Where an element of [a ++ b] sits. *)
Lemma app_cons_split {A} (pre post a b : list A) (e : A) :
  pre ++ e :: post = a ++ b ->
  (exists c, a = pre ++ e :: c /\ post = c ++ b) \/
  (exists c, pre = a ++ c /\ b = c ++ e :: post).
Proof.
  revert pre. induction a as [|x a IH]; intros pre H.
  - right. exists pre. auto.
  - destruct pre as [|y pre]; simpl in H; injection H as -> H.
    + left. exists a. subst. auto.
    + destruct (IH _ H) as [(c & -> & ->)|(c & -> & ->)].
      * left. exists c. auto.
      * right. exists c. auto.
Qed.

(** A log with a single send has it at one place only. *)
Lemma send_unique (a rest pre post : list event) (e e0 : event) :
  sends a = [] -> sends rest = [] -> is_send e = true ->
  pre ++ e :: post = a ++ e0 :: rest ->
  pre = a /\ e = e0 /\ post = rest.
Proof.
  intros Ha Hrest He. revert pre.
  induction a as [|x a IH]; intros pre H.
  - destruct pre as [|y pre]; simpl in H; injection H as -> H; [auto|].
    exfalso. rewrite <- H in Hrest. eapply sends_middle; eauto.
  - unfold sends in Ha. simpl in Ha.
    destruct (is_send x) eqn:Hx; [discriminate|].
    destruct pre as [|y pre]; simpl in H; injection H as -> H.
    + congruence.
    + destruct (IH Ha _ H) as (-> & -> & ->). auto.
Qed.

(** The log of one attempt: the call of [wait], its sleeps, the rest. *)
Lemma attempt_log_sends (l : loc) (ws rest : list event) :
  Forall is_rate_sleep ws -> sends (EvWait l :: ws ++ rest) = sends rest.
Proof.
  intros H. destruct (rate_sleeps_no_send ws H) as (Hs & _ & _).
  change (sends (EvWait l :: ws ++ rest)) with (sends (ws ++ rest)).
  rewrite sends_app, Hs. reflexivity.
Qed.

Lemma attempt_log_waits (l : loc) (ws rest : list event) :
  Forall is_rate_sleep ws -> waits (EvWait l :: ws ++ rest) = l :: waits rest.
Proof.
  intros H. destruct (rate_sleeps_no_send ws H) as (_ & _ & Hw).
  simpl. rewrite waits_app, Hw. reflexivity.
Qed.

Lemma attempt_log_backoffs (l : loc) (ws rest : list event) :
  Forall is_rate_sleep ws -> backoffs (EvWait l :: ws ++ rest) = backoffs rest.
Proof.
  intros H. destruct (rate_sleeps_no_send ws H) as (_ & Hb & _).
  simpl. rewrite backoffs_app, Hb. reflexivity.
Qed.

Section Facts.

Variable env : Env.

(** The state [LastRequestRateLimitedRequest.wait] leaves, with the first
    clock reading, the elapsed time and the decision to sleep. *)
Lemma LastRequest_wait_run (s : State) (l : loc) (rl : value) (t0 limit : Q) :
  heap s !! l = Some (LastRequest_obj rl t0) ->
  as_number rl = Some limit ->
  let current_time := (now s + lag env (ticks s))%Q in
  let elapsed := (current_time - t0)%Q in
  exists s1,
    wait env l s = (Ok tt, s1) /\
    trace s1 = trace s ++ EvWait l ::
      (if Qlt_bool elapsed limit
       then [EvSleep RateLimitSleep (limit - elapsed)%Q] else []) /\
    heap s1 = <[l := LastRequest_obj rl (now s1)]> (heap s) /\
    now s1 = (if Qlt_bool elapsed limit
              then current_time + lag env (S (ticks s)) + (limit - elapsed)
                   + lag env (S (S (ticks s)))
              else current_time + lag env (S (ticks s)))%Q /\
    ticks s1 = (if Qlt_bool elapsed limit then 3 + ticks s else 2 + ticks s)%nat /\
    sent s1 = sent s /\
    endpoint_limits s1 = endpoint_limits s /\
    rate_limit_strategy s1 = rate_limit_strategy s.
Proof.
  intros Hl Hn current_time elapsed.
  unfold wait, bind, log, modify, gets. simpl. rewrite Hl.
  unfold LastRequestRateLimitedRequest_wait, time_time, tick, bind, modify, gets.
  simpl. rewrite Hn. fold current_time. fold elapsed.
  destruct (Qlt_bool elapsed limit) eqn:E.
  - unfold time_sleep.
    assert (Qlt_bool (limit - elapsed) 0 = false) as ->.
    { apply Qlt_bool_false. apply Qlt_bool_true in E. lra. }
    unfold bind, log, tick, modify, gets, ret. simpl.
    eexists. split; [reflexivity|]. simpl.
    rewrite <- app_assoc. simpl. repeat split; reflexivity.
  - unfold ret. simpl. eexists. split; [reflexivity|]. simpl.
    repeat split; reflexivity.
Qed.

(** [wait] logs the call, then at most one rate-limit sleep; it sends
    nothing and touches no other object; on a well-typed instance it
    returns normally and leaves the instance well typed, on any other it
    raises. *)
Lemma wait_run (s : State) (l : loc) :
  exists r s1 ws,
    wait env l s = (r, s1) /\
    trace s1 = trace s ++ EvWait l :: ws /\
    Forall is_rate_sleep ws /\
    sent s1 = sent s /\
    (forall l', l' <> l -> heap s1 !! l' = heap s !! l') /\
    (limiter_ok s l -> r = Ok tt /\ limiter_ok s1 l) /\
    (~ limiter_ok s l -> exists e, r = Raise e).
Proof.
  destruct (heap s !! l) as [[rl t0|]|] eqn:Hl.
  - destruct (as_number rl) as [limit|] eqn:Hn.
    + destruct (LastRequest_wait_run s l rl t0 limit Hl Hn)
        as (s1 & Hrun & Htr & Hheap & _ & _ & Hsent & _).
      exists (Ok tt), s1. eexists. split; [exact Hrun|].
      split; [exact Htr|]. split.
      { destruct (Qlt_bool _ _); repeat constructor. }
      split; [exact Hsent|]. split; [|split].
      * intros l' Hne. rewrite Hheap. apply list_lookup_insert_ne. auto.
      * intros _. split; [reflexivity|].
        exists (LastRequest_obj rl (now s1)). split.
        -- rewrite Hheap. apply list_lookup_insert_eq.
           eapply lookup_lt_Some, Hl.
        -- simpl. rewrite Hn. eauto.
      * intros Hbad. exfalso. apply Hbad. eexists. split; [exact Hl|].
        simpl. rewrite Hn. eauto.
    + exists (Raise TypeError). eexists. exists [].
      unfold wait, bind, log, modify, gets. simpl. rewrite Hl.
      unfold LastRequestRateLimitedRequest_wait, time_time, tick, bind,
        modify, gets. simpl. rewrite Hn.
      split; [reflexivity|]. simpl.
      split; [reflexivity|]. split; [constructor|]. split; [reflexivity|].
      split; [reflexivity|]. split; [|eauto].
      intros (o & Ho & Hwt). exfalso. rewrite Hl in Ho.
      injection Ho as <-. simpl in Hwt. rewrite Hn in Hwt.
      destruct Hwt; discriminate.
  - exists (Ok tt). eexists. exists [].
    unfold wait, bind, log, modify, gets. simpl. rewrite Hl.
    split; [reflexivity|]. simpl.
    split; [reflexivity|]. split; [constructor|]. split; [reflexivity|].
    split; [reflexivity|].
    assert (limiter_ok s l) as Hok by (exists Default_obj; simpl; auto).
    split; [|contradiction].
    intros _. split; [reflexivity|]. exists Default_obj. simpl. auto.
  - exists (Raise AttributeError). eexists. exists [].
    unfold wait, bind, log, modify, gets. simpl. rewrite Hl.
    split; [reflexivity|]. simpl.
    split; [reflexivity|]. split; [constructor|]. split; [reflexivity|].
    split; [reflexivity|]. split; [|eauto].
    intros (o & Ho & _). congruence.
Qed.

Lemma session_request_run (s : State) (method url : string) (kw : kwargs) :
  exists s1,
    session_request env method url kw s =
      (match transport env (sent s) method url kw with
       | Responds r => Ok r
       | Fails e => Raise e
       end, s1) /\
    trace s1 = trace s ++ [EvSend (sent s) method url kw] /\
    sent s1 = S (sent s) /\
    heap s1 = heap s.
Proof.
  unfold session_request, bind, log, tick, modify, gets. simpl.
  destruct (transport env (sent s) method url kw);
    eexists; (split; [reflexivity|]); simpl; auto.
Qed.

Lemma backoff_sleep_run (s : State) (k : Z) :
  exists s1,
    time_sleep env BackoffSleep (inject_Z (2 ^ k)) s = (Ok tt, s1) /\
    trace s1 = trace s ++ [EvSleep BackoffSleep (inject_Z (2 ^ k))] /\
    sent s1 = sent s /\
    heap s1 = heap s.
Proof.
  unfold time_sleep. rewrite backoff_not_negative.
  unfold bind, log, tick, modify, gets. simpl.
  eexists. split; [reflexivity|]. simpl. auto.
Qed.

Section Loop.

Variables (limiter : loc) (method url : string) (kw : kwargs) (retries : Z).

Lemma attempt_run (s : State) (retry : Z) :
  exists r s1 ws,
    attempt env limiter method url kw retries retry s = (r, s1) /\
    Forall is_rate_sleep ws /\
    (forall l', l' <> limiter -> heap s1 !! l' = heap s !! l') /\
    ((exists e, r = Raise e /\ trace s1 = trace s ++ EvWait limiter :: ws /\
                sent s1 = sent s /\ ~ limiter_ok s limiter)
     \/
     (exists tail, trace s1 = trace s ++ EvWait limiter :: ws ++ tail /\
                   sent s1 = S (sent s) /\
                   attempt_case env method url kw retries (sent s) retry r tail /\
                   (limiter_ok s limiter -> limiter_ok s1 limiter))).
Proof.
  destruct (wait_run s limiter) as (rw & sw & ws & Hw & Htr & Hws & Hsent & Hfr & Hok & Hbad).
  unfold attempt, bind. rewrite Hw.
  destruct rw as [[]|e].
  2:{ exists (Raise e), sw, ws. split; [reflexivity|]. split; [exact Hws|].
      split; [exact Hfr|]. left. exists e. repeat split; auto.
      intros H. destruct (Hok H) as [? _]. discriminate. }
  assert (limiter_ok s limiter -> limiter_ok sw limiter) as Hkeep
    by (intros H; apply Hok, H).
  destruct (session_request_run sw method url kw) as (s2 & Hs & Htr2 & Hsent2 & Hheap2).
  unfold try_except, bind. rewrite Hs, Hsent.
  destruct (transport env (sent s) method url kw) as [r|e] eqn:Ht.
  - exists (Ok (Some r)), s2, ws. split; [reflexivity|]. split; [exact Hws|].
    split; [rewrite Hheap2; exact Hfr|]. right. exists [EvSend (sent s) method url kw].
    rewrite Htr2, Htr, Hsent2, Hsent, <- app_assoc. simpl.
    repeat split; auto.
    + constructor. exact Ht.
    + intros H. destruct (Hkeep H) as (o & Ho & Hwt). exists o.
      rewrite Hheap2. auto.
  - assert (limiter_ok s limiter -> limiter_ok s2 limiter) as Hkeep2.
    { intros H. destruct (Hkeep H) as (o & Ho & Hwt). exists o.
      rewrite Hheap2. auto. }
    destruct e as [k| | | |k];
      try (eexists _, s2, ws; split; [reflexivity|]; split; [exact Hws|];
           split; [rewrite Hheap2; exact Hfr|]; right; exists [EvSend (sent s) method url kw];
           rewrite Htr2, Htr, Hsent2, Hsent, <- app_assoc; simpl;
           repeat split; auto;
           apply attempt_propagates; [exact Ht | discriminate]).
    destruct (retry =? retries - 1) eqn:Elast.
    + exists (Raise (RequestException k)), s2, ws.
      split; [reflexivity|]. split; [exact Hws|].
      split; [rewrite Hheap2; exact Hfr|].
      right. exists [EvSend (sent s) method url kw].
      rewrite Htr2, Htr, Hsent2, Hsent, <- app_assoc. simpl.
      repeat split; auto.
      apply attempt_propagates; [exact Ht|]. intros _ _. lia.
    + destruct (backoff_sleep_run s2 retry) as (s3 & Hb & Htr3 & Hsent3 & Hheap3).
      rewrite Hb. exists (Ok None), s3, ws.
      split; [reflexivity|]. split; [exact Hws|].
      split; [rewrite Hheap3, Hheap2; exact Hfr|].
      right. eexists [EvSend (sent s) method url kw; EvSleep BackoffSleep _].
      rewrite Htr3, Htr2, Htr, Hsent3, Hsent2, Hsent, <- !app_assoc. simpl.
      repeat split; auto.
      * eapply attempt_backs_off; [exact Ht | lia].
      * intros H. destruct (Hkeep2 H) as (o & Ho & Hwt). exists o.
        rewrite Hheap3. auto.
Qed.

Lemma for_range_S (n : nat) (retry : Z) (body : Z -> M (option Response))
    (s : State) :
  for_range (S n) retry body s =
  match body retry s with
  | (Ok (Some v), s1) => (Ok (Some v), s1)
  | (Ok None, s1) => for_range n (retry + 1) body s1
  | (Raise e, s1) => (Raise e, s1)
  end.
Proof.
  simpl. unfold bind. destruct (body retry s) as [[[v|]|e] s1]; reflexivity.
Qed.

Lemma for_range_run (n : nat) : forall (retry : Z) (s : State),
  exists res s1 evs,
    for_range n retry (attempt env limiter method url kw retries) s = (res, s1) /\
    trace s1 = trace s ++ evs /\
    (forall l', l' <> limiter -> heap s1 !! l' = heap s !! l') /\
    ((0 < n)%nat -> exists evs', evs = EvWait limiter :: evs') /\
    (forall pre e post,
       evs = pre ++ e :: post -> is_send e = true ->
       exists pre' ws,
         pre = pre' ++ EvWait limiter :: ws /\ Forall is_rate_sleep ws) /\
    (forall pre i m u k post r,
       evs = pre ++ EvSend i m u k :: post ->
       transport env i m u k = Responds r ->
       post = [] /\ res = Ok (Some r)) /\
    Forall (fun l => l = limiter) (waits evs).
Proof.
  induction n as [|n IH]; intros retry s.
  - exists (Ok None), s, []. simpl. rewrite app_nil_r.
    split; [reflexivity|]. split; [reflexivity|]. split; [reflexivity|].
    split; [lia|]. split; [|split].
    + intros [|] ? ? H; discriminate.
    + intros [|] ? ? ? ? ? ? H; discriminate.
    + constructor.
  - destruct (attempt_run s retry) as (r & s1 & ws & Hrun & Hws & Hfr & Hcase).
    rewrite for_range_S, Hrun.
    destruct Hcase as [(e & -> & Htr & _ & _)|(tail & Htr & Hsent & Hcase & _)].
    + exists (Raise e), s1, (EvWait limiter :: ws).
      split; [reflexivity|]. split; [exact Htr|]. split; [exact Hfr|].
      split; [eauto|].
      assert (sends (EvWait limiter :: ws) = []) as Hnone.
      { rewrite <- (app_nil_r ws). apply attempt_log_sends, Hws. }
      split; [|split].
      * intros pre e' post H He'. exfalso. rewrite H in Hnone.
        eapply sends_middle; eauto.
      * intros pre i m u k post r' H _. exfalso. rewrite H in Hnone.
        eapply (sends_middle pre post (EvSend i m u k)); eauto.
      * rewrite <- (app_nil_r ws), attempt_log_waits by exact Hws.
        repeat constructor.
    + assert (sends (EvWait limiter :: ws) = []) as Hnone.
      { rewrite <- (app_nil_r ws). apply attempt_log_sends, Hws. }
      inversion Hcase as [r' Ht|e Ht Hlast|k Ht Hnot]; subst.
      * exists (Ok (Some r')), s1. eexists. split; [reflexivity|].
        split; [exact Htr|]. split; [exact Hfr|]. split; [eauto|].
        split; [|split].
        -- intros pre e' post H He'. symmetry in H.
           apply (send_unique (EvWait limiter :: ws) []) in H
             as (-> & _ & _); auto.
           exists [], ws. auto.
        -- intros pre i m u k post r0 H Hr0. symmetry in H.
           apply (send_unique (EvWait limiter :: ws) []) in H
             as (-> & [= -> -> -> ->] & ->); auto.
           split; [reflexivity|]. congruence.
        -- rewrite attempt_log_waits by exact Hws. repeat constructor.
      * exists (Raise e), s1. eexists. split; [reflexivity|].
        split; [exact Htr|]. split; [exact Hfr|]. split; [eauto|].
        split; [|split].
        -- intros pre e' post H He'. symmetry in H.
           apply (send_unique (EvWait limiter :: ws) []) in H
             as (-> & _ & _); auto.
           exists [], ws. auto.
        -- intros pre i m u k post r0 H Hr0. symmetry in H.
           apply (send_unique (EvWait limiter :: ws) []) in H
             as (-> & [= -> -> -> ->] & ->); auto.
           congruence.
        -- rewrite attempt_log_waits by exact Hws. repeat constructor.
      * destruct (IH (retry + 1) s1)
          as (res & s2 & evs & Hloop & Htr2 & Hfr2 & _ & Haw & Hre & Hwl).
        rewrite Hloop. exists res, s2.
        set (block := EvWait limiter :: ws ++
               [EvSend (sent s) method url kw;
                EvSleep BackoffSleep (inject_Z (2 ^ retry))]) in *.
        exists (block ++ evs). split; [reflexivity|].
        split; [rewrite Htr2, Htr, <- app_assoc; reflexivity|].
        split; [intros l' Hne; rewrite Hfr2, Hfr; auto|].
        split; [unfold block; simpl; eauto|].
        assert (forall pre e post, is_send e = true ->
                  pre ++ e :: post = block ->
                  pre = EvWait limiter :: ws /\
                  e = EvSend (sent s) method url kw) as Hblock.
        { intros pre e' post He' H.
          apply (send_unique (EvWait limiter :: ws)
                   [EvSleep BackoffSleep (inject_Z (2 ^ retry))]) in H
            as (-> & -> & _); auto. }
        split; [|split].
        -- intros pre e' post H He'. symmetry in H.
           apply app_cons_split in H as [(c & Hb & ->)|(c & -> & ->)].
           ++ symmetry in Hb. apply Hblock in Hb as (-> & _); auto.
              exists [], ws. auto.
           ++ destruct (Haw c e' post eq_refl He') as (pre' & ws' & -> & Hws').
              exists (block ++ pre'), ws'. rewrite <- app_assoc. auto.
        -- intros pre i m u k0 post r0 H Hr0. symmetry in H.
           apply app_cons_split in H as [(c & Hb & ->)|(c & -> & Hevs)].
           ++ symmetry in Hb. apply Hblock in Hb as (_ & [= -> -> -> ->]); auto.
              congruence.
           ++ eapply Hre; eauto.
        -- rewrite waits_app. unfold block.
           rewrite attempt_log_waits by exact Hws. simpl.
           constructor; auto.
Qed.

Lemma backoff_schedule_S (retry : Z) (n : nat) :
  backoff_schedule retry (S n) =
  inject_Z (2 ^ retry) :: backoff_schedule (retry + 1) n.
Proof.
  unfold backoff_schedule. simpl. rewrite Z.add_0_r. f_equal.
  rewrite <- seq_shift, List.map_map. apply List.map_ext.
  intros j. do 2 f_equal. lia.
Qed.

(** The loop when the transport keeps failing up to the last attempt. *)
Lemma for_range_all_fail (n : nat) : forall (retry : Z) (s : State),
  retry + Z.of_nat (S n) = retries ->
  limiter_ok s limiter ->
  (forall i, (sent s <= i < sent s + S n)%nat ->
     exists k, transport env i method url kw = Fails (RequestException k)) ->
  exists e s1 evs,
    for_range (S n) retry (attempt env limiter method url kw retries) s
      = (Raise e, s1) /\
    transport env (sent s + n)%nat method url kw = Fails e /\
    trace s1 = trace s ++ evs /\
    sent s1 = (sent s + S n)%nat /\
    length (sends evs) = S n /\
    waits evs = repeat limiter (S n) /\
    backoffs evs = backoff_schedule retry n.
Proof.
  induction n as [|n IH]; intros retry s Hretry Hok Hfail.
  - destruct (attempt_run s retry) as (r & s1 & ws & Hrun & Hws & Hfr & Hcase).
    destruct (Hfail (sent s)) as (k & Hk); [lia|].
    simpl. unfold bind. rewrite Hrun.
    destruct Hcase as [(e & _ & _ & _ & Hbad)|(tail & Htr & Hsent & Hcase & _)];
      [contradiction|].
    inversion Hcase as [r' Ht|e Ht Hlast|k' Ht Hnot]; subst;
      [congruence| |lia].
    exists e, s1. eexists. split; [reflexivity|].
    rewrite Nat.add_0_r. split; [exact Ht|]. split; [exact Htr|].
    split; [lia|].
    rewrite attempt_log_sends, attempt_log_waits, attempt_log_backoffs by exact Hws.
    auto.
  - destruct (attempt_run s retry) as (r & s1 & ws & Hrun & Hws & Hfr & Hcase).
    destruct (Hfail (sent s)) as (k & Hk); [lia|].
    rewrite for_range_S, Hrun.
    destruct Hcase as [(e & _ & _ & _ & Hbad)|(tail & Htr & Hsent & Hcase & Hkeep)];
      [contradiction|].
    inversion Hcase as [r' Ht|e Ht Hlast|k' Ht Hnot]; subst; [congruence| |].
    { rewrite Hk in Ht. injection Ht as <-. specialize (Hlast k eq_refl). lia. }
    destruct (IH (retry + 1) s1) as (e & s2 & evs & Hloop & Hcause & Htr2 & Hsent2 & Hn & Hwl & Hbk).
    { lia. }
    { auto. }
    { intros i Hi. apply Hfail. lia. }
    rewrite Hloop. exists e, s2. eexists. split; [reflexivity|].
    split; [rewrite <- Hcause; f_equal; lia|].
    split; [rewrite Htr2, Htr, <- app_assoc; reflexivity|].
    split; [lia|].
    rewrite backoff_schedule_S, sends_app, waits_app, backoffs_app.
    rewrite attempt_log_sends, attempt_log_waits, attempt_log_backoffs by exact Hws.
    rewrite Hwl, Hbk, length_app, Hn. auto.
Qed.

(** The loop when the transport fails [j] times and then answers. *)
Lemma for_range_succeeds (j : nat) : forall (n : nat) (retry : Z) (s : State) r,
  (j < n)%nat ->
  retry + Z.of_nat n = retries ->
  limiter_ok s limiter ->
  (forall i, (sent s <= i < sent s + j)%nat ->
     exists k, transport env i method url kw = Fails (RequestException k)) ->
  transport env (sent s + j)%nat method url kw = Responds r ->
  exists s1 evs,
    for_range n retry (attempt env limiter method url kw retries) s
      = (Ok (Some r), s1) /\
    trace s1 = trace s ++ evs /\
    sent s1 = (sent s + S j)%nat /\
    length (sends evs) = S j /\
    (exists pre, evs = pre ++ [EvSend (sent s + j)%nat method url kw]) /\
    waits evs = repeat limiter (S j) /\
    backoffs evs = backoff_schedule retry j.
Proof.
  induction j as [|j IH]; intros n retry s r Hjn Hretry Hok Hfail Hresp;
    (destruct n as [|n]; [lia|]);
    destruct (attempt_run s retry) as (r1 & s1 & ws & Hrun & Hws & Hfr & Hcase);
    rewrite for_range_S, Hrun;
    (destruct Hcase as [(e & _ & _ & _ & Hbad)|(tail & Htr & Hsent & Hcase & Hkeep)];
      [contradiction|]);
    inversion Hcase as [r' Ht|e Ht Hlast|k' Ht Hnot]; subst.
  - rewrite Nat.add_0_r in Hresp. rewrite Hresp in Ht. injection Ht as <-.
    exists s1. eexists. split; [reflexivity|]. split; [exact Htr|].
    split; [lia|]. rewrite Nat.add_0_r.
    rewrite attempt_log_sends, attempt_log_waits, attempt_log_backoffs by exact Hws.
    repeat split; auto. exists (EvWait limiter :: ws). reflexivity.
  - rewrite Nat.add_0_r in Hresp. congruence.
  - rewrite Nat.add_0_r in Hresp. congruence.
  - destruct (Hfail (sent s)) as (k & Hk); [lia|]. congruence.
  - destruct (Hfail (sent s)) as (k & Hk); [lia|].
    rewrite Hk in Ht. injection Ht as <-. specialize (Hlast k eq_refl). lia.
  - destruct (IH n (retry + 1) s1 r)
      as (s2 & evs & Hloop & Htr2 & Hsent2 & Hn & Hlast & Hwl & Hbk).
    { lia. }
    { lia. }
    { auto. }
    { intros i Hi. apply Hfail. lia. }
    { rewrite <- Hresp. f_equal. lia. }
    rewrite Hloop. exists s2. eexists. split; [reflexivity|].
    split; [rewrite Htr2, Htr, <- app_assoc; reflexivity|].
    split; [lia|].
    rewrite backoff_schedule_S, sends_app, waits_app, backoffs_app.
    rewrite attempt_log_sends, attempt_log_waits, attempt_log_backoffs by exact Hws.
    rewrite Hwl, Hbk, length_app, Hn. repeat split; auto.
    destruct Hlast as (pre & ->). eexists (_ ++ pre).
    rewrite app_assoc. f_equal. rewrite Hsent. do 2 f_equal. lia.
Qed.

End Loop.

End Facts.

(** ** Resolution of the limiter *)

Lemma resolve_limiter_run (s : State) (url : string) (rate_limit : value) :
  resolve_limiter url rate_limit s =
  match endpoint_limits s !! url with
  | Some l => (Ok l, s)
  | None =>
      (Ok (length (heap s)),
       with_heap (heap s ++ [if truthy rate_limit
                             then init (rate_limit_strategy s) rate_limit
                             else Default_obj]) s)
  end.
Proof.
  unfold resolve_limiter, _get_request_group, bind, gets. simpl.
  destruct (endpoint_limits s !! url) as [l|]; simpl; [reflexivity|].
  destruct (truthy rate_limit); reflexivity.
Qed.

Lemma resolve_limiter_ok (s s0 : State) (url : string) (rate_limit : value) (l : loc) :
  request_well_typed s url rate_limit ->
  resolve_limiter url rate_limit s = (Ok l, s0) ->
  limiter_ok s0 l /\ trace s0 = trace s /\ sent s0 = sent s.
Proof.
  unfold request_well_typed. rewrite resolve_limiter_run.
  destruct (endpoint_limits s !! url) as [l0|]; intros Hwt [= <- <-].
  - auto.
  - simpl. split; [|auto]. eexists. split.
    + simpl. apply list_lookup_middle. reflexivity.
    + destruct (truthy rate_limit); [|exact I].
      destruct (rate_limit_strategy s); simpl; auto.
Qed.

(** [request] is the loop run on the limiter the first statements
    resolve; resolving logs nothing, sends nothing and takes no time. *)
Lemma request_run (env : Env) (method url : string) (rate_limit : value)
    (retries : Z) (kw : kwargs) (s : State) :
  exists l s0,
    resolve_limiter url rate_limit s = (Ok l, s0) /\
    request env method url rate_limit retries kw s =
      for_range (Z.to_nat retries) 0
        (attempt env l method url kw retries) s0 /\
    trace s0 = trace s /\ sent s0 = sent s /\ now s0 = now s /\
    (forall l', (l' < length (heap s))%nat -> heap s0 !! l' = heap s !! l').
Proof.
  unfold request, bind. rewrite resolve_limiter_run.
  destruct (endpoint_limits s !! url) as [l|].
  - exists l, s. auto 10.
  - eexists _, _. split; [reflexivity|]. split; [reflexivity|]. simpl.
    repeat split. intros l' Hl'. apply lookup_app_l. exact Hl'.
Qed.

(** ** The sum of a backoff schedule *)

Lemma Qsum_backoff_schedule (n : nat) : forall retry : Z,
  0 <= retry ->
  (Qsum (backoff_schedule retry n) == inject_Z (2 ^ (retry + Z.of_nat n) - 2 ^ retry))%Q.
Proof.
  induction n as [|n IH]; intros retry Hretry.
  - simpl. rewrite Z.add_0_r, Z.sub_diag. reflexivity.
  - rewrite backoff_schedule_S. simpl Qsum. rewrite IH by lia.
    rewrite <- inject_Z_plus. apply inject_Z_injective.
    replace (retry + 1 + Z.of_nat n) with (retry + Z.of_nat (S n)) by lia.
    rewrite (Z.pow_add_r 2 retry 1) by lia. lia.
Qed.

(** * The claims *)

(** C1: [configure_limit(url, rate_limit)] followed by a resolve of [url]
    should return the configured limiter.  The code builds or accepts the
    limiter and drops it: the registry is left as it was, so the resolve
    returns whatever was there before, and nothing on a new client, both
    for the interval 5 and for a ready-made instance. *)
Theorem configure_limit_leaves_registry_unchanged :
  (forall (s : State) (url : string) (rate_limit : value),
     exists s1,
       configure_limit url rate_limit s = (Ok tt, s1) /\
       endpoint_limits s1 = endpoint_limits s /\
       fst (_get_request_group url s1) = Ok (endpoint_limits s !! url)) /\
  fst ((configure_limit example_url (VInt 5) ;; _get_request_group example_url)
         fresh_client) = Ok None /\
  fst ((configure_limit example_url (VRef 0%nat) ;; _get_request_group example_url)
         fresh_client) = Ok None.
Proof.
  split; [|split; reflexivity].
  intros s url rate_limit. unfold configure_limit.
  destruct (isinstance_int rate_limit).
  - unfold bind, gets, new, modify, ret. simpl. eexists.
    split; [reflexivity|]. simpl. auto.
  - unfold isinstance_BaseRateLimitedRequest.
    destruct rate_limit; unfold bind, gets, ret; simpl;
      try (exists s; auto).
    case_bool_decide; auto.
Qed.



(** C6, as stated: whenever the transport answers at the attempt
    [k <= retries] after failing at the earlier ones, the call returns
    that response.  It does not when the [wait] of the limiter raises
    first: on a client built with [LastRequestRateLimitedRequest], with a
    strategy instance as the [rate_limit] of the call and a transport
    that answers at once ([k = 1]), the call raises [TypeError] and has
    sent nothing. *)
Lemma request_raises_before_the_answer :
  (exists r, transport always_up 0 "GET" example_url [] = Responds r) /\
  fst (request always_up "GET" example_url (VRef 0%nat) 1 [] fresh_client)
    = Raise TypeError /\
  (forall r,
     fst (request always_up "GET" example_url (VRef 0%nat) 1 [] fresh_client)
       <> Ok (Some r)) /\
  sent (snd (request always_up "GET" example_url (VRef 0%nat) 1 []
               fresh_client)) = 0%nat.
Proof.
  split; [eexists; reflexivity|]. vm_compute.
  repeat split; try reflexivity. intros r. discriminate.
Qed.

(** C6, amended: with a limiter whose [wait] cannot raise, if the
    transport raises a [RequestException] at the attempts [1 .. k - 1]
    and answers at the attempt [k], with [1 <= k <= retries], [request]
    returns that response; the send that got it is the last thing the
    call did, and the [k]-th. *)
Theorem request_returns_first_response (env : Env) (method url : string)
    (rate_limit : value) (retries : Z) (kw : kwargs) (s : State)
    (k : nat) (r : Response) :
  (1 <= k)%nat ->
  Z.of_nat k <= retries ->
  request_well_typed s url rate_limit ->
  (forall i, (sent s <= i < sent s + (k - 1))%nat ->
     exists c, transport env i method url kw = Fails (RequestException c)) ->
  transport env (sent s + (k - 1))%nat method url kw = Responds r ->
  exists s1 evs,
    request env method url rate_limit retries kw s = (Ok (Some r), s1) /\
    trace s1 = trace s ++ evs /\
    length (sends evs) = k /\
    sent s1 = (sent s + k)%nat /\
    exists pre, evs = pre ++ [EvSend (sent s + (k - 1))%nat method url kw].
Proof.
  intros Hk Hkn Hwt Hfail Hresp.
  destruct (request_run env method url rate_limit retries kw s)
    as (l & s0 & Hres & -> & Htr0 & Hsent0 & _).
  destruct (resolve_limiter_ok _ _ _ _ _ Hwt Hres) as (Hok & _ & _).
  destruct (for_range_succeeds env l method url kw retries (k - 1)
              (Z.to_nat retries) 0 s0 r)
    as (s1 & evs & Hloop & Htr & Hsent & Hsends & Hlast & _).
  { lia. }
  { lia. }
  { exact Hok. }
  { rewrite Hsent0. exact Hfail. }
  { rewrite Hsent0. exact Hresp. }
  exists s1, evs. rewrite Hsent0, Htr0 in *.
  split; [exact Hloop|]. split; [exact Htr|].
  split; [lia|]. split; [lia|]. exact Hlast.
Qed.

(** C7: whatever the transport answers, whatever its status, ends the
    call: a send of the log that got a response [r] is the last thing the
    call did (no retry, no backoff) and [r] is what [request] returns. *)
Theorem request_returns_any_response (env : Env) (method url : string)
    (rate_limit : value) (retries : Z) (kw : kwargs) (s : State) :
  exists res s1 evs,
    request env method url rate_limit retries kw s = (res, s1) /\
    trace s1 = trace s ++ evs /\
    forall pre i m u k post r,
      evs = pre ++ EvSend i m u k :: post ->
      transport env i m u k = Responds r ->
      post = [] /\ res = Ok (Some r).
Proof.
  destruct (request_run env method url rate_limit retries kw s)
    as (l & s0 & _ & -> & Htr0 & _).
  destruct (for_range_run env l method url kw retries (Z.to_nat retries) 0 s0)
    as (res & s1 & evs & Hloop & Htr & _ & _ & _ & Hre & _).
  exists res, s1, evs. rewrite Htr0 in Htr. auto.
Qed.

(** C8: every transport attempt of a call, the first as well as the
    retries, comes after a call of [wait] on the limiter the call resolved,
    with nothing in between but the sleep of that very [wait]. *)
Theorem request_waits_before_every_send (env : Env) (method url : string)
    (rate_limit : value) (retries : Z) (kw : kwargs) (s : State) :
  exists l res s1 evs,
    fst (resolve_limiter url rate_limit s) = Ok l /\
    request env method url rate_limit retries kw s = (res, s1) /\
    trace s1 = trace s ++ evs /\
    forall pre e post,
      evs = pre ++ e :: post -> is_send e = true ->
      exists pre' ws,
        pre = pre' ++ EvWait l :: ws /\ Forall is_rate_sleep ws.
Proof.
  destruct (request_run env method url rate_limit retries kw s)
    as (l & s0 & Hres & -> & Htr0 & _).
  destruct (for_range_run env l method url kw retries (Z.to_nat retries) 0 s0)
    as (res & s1 & evs & Hloop & Htr & _ & _ & Haw & _).
  exists l, res, s1, evs. rewrite Hres, Htr0 in *. auto.
Qed.

(** C9: with [retries <= 0] the loop body never runs: [request] returns
    [None] without a [wait], a sleep or a send, and raises nothing. *)
Theorem request_without_attempts (env : Env) (method url : string)
    (rate_limit : value) (retries : Z) (kw : kwargs) (s : State) :
  retries <= 0 ->
  exists s1,
    request env method url rate_limit retries kw s = (Ok None, s1) /\
    trace s1 = trace s /\ sent s1 = sent s /\ now s1 = now s.
Proof.
  intros Hretries.
  destruct (request_run env method url rate_limit retries kw s)
    as (l & s0 & _ & -> & Htr0 & Hsent0 & Hnow0 & _).
  replace (Z.to_nat retries) with 0%nat by lia.
  exists s0. auto.
Qed.

(** C3, as stated: a [rate_limit] that is neither an [int] nor a strategy
    instance makes [configure_limit] raise.  It does not: the string
    ["fast"] is neither, and the call returns normally. *)
Lemma configure_limit_accepts_a_string :
  isinstance_int (VStr "fast") = false /\
  fst (isinstance_BaseRateLimitedRequest (VStr "fast") fresh_client) = Ok false /\
  fst (configure_limit example_url (VStr "fast") fresh_client) = Ok tt /\
  forall e, fst (configure_limit example_url (VStr "fast") fresh_client) <> Raise e.
Proof.
  repeat split; discriminate.
Qed.

(** C3, amended: [configure_limit] raises nothing, whatever [rate_limit]
    is; it returns [None] at once, having logged nothing, sent nothing and
    taken no time. *)
Theorem configure_limit_never_raises (s : State) (url : string) (rate_limit : value) :
  exists s1,
    configure_limit url rate_limit s = (Ok tt, s1) /\
    trace s1 = trace s /\ sent s1 = sent s /\ now s1 = now s.
Proof.
  unfold configure_limit.
  destruct (isinstance_int rate_limit).
  - unfold bind, gets, new, modify, ret. simpl. eexists.
    split; [reflexivity|]. simpl. auto.
  - unfold isinstance_BaseRateLimitedRequest.
    destruct rate_limit; unfold bind, gets, ret; simpl;
      try (exists s; auto).
    case_bool_decide; auto.
Qed.

(** C4, as stated: without a registry entry, a [rate_limit] that was passed
    is wrapped in the configured class.  The interval [0] was passed, and
    the limiter the code resolves is the no-op strategy, not
    [LastRequestRateLimitedRequest(0)]. *)
Lemma resolve_limiter_drops_zero_interval :
  heap (snd (resolve_limiter example_url (VInt 0) fresh_client))
    = [LastRequest_obj (VInt 2) 0; Default_obj] /\
  heap (snd (resolve_limiter_as_specified example_url (VInt 0) fresh_client))
    = [LastRequest_obj (VInt 2) 0; LastRequest_obj (VInt 0) 0] /\
  resolve_limiter example_url (VInt 0) fresh_client
    <> resolve_limiter_as_specified example_url (VInt 0) fresh_client.
Proof.
  repeat split. discriminate.
Qed.

(** C4, amended: [request] resolves one limiter before the loop, and every
    [wait] of the call is on it.  It is the registered instance when [url]
    has one, whatever [rate_limit] is; otherwise a fresh instance of the
    configured class built from [rate_limit] when that is truthy (not
    [None], [0], [0.0], [False] or the empty string); otherwise a fresh
    no-op strategy. *)
Theorem request_resolves_one_limiter (env : Env) (method url : string)
    (rate_limit : value) (retries : Z) (kw : kwargs) (s : State) :
  exists l s0 res s1 evs,
    resolve_limiter url rate_limit s = (Ok l, s0) /\
    trace s0 = trace s /\
    request env method url rate_limit retries kw s = (res, s1) /\
    trace s1 = trace s ++ evs /\
    Forall (fun l' => l' = l) (waits evs) /\
    match endpoint_limits s !! url with
    | Some l0 => l = l0 /\ s0 = s
    | None =>
        l = length (heap s) /\
        heap s0 = heap s ++
          [if truthy rate_limit
           then init (rate_limit_strategy s) rate_limit
           else Default_obj]
    end.
Proof.
  destruct (request_run env method url rate_limit retries kw s)
    as (l & s0 & Hres & -> & Htr0 & _).
  destruct (for_range_run env l method url kw retries (Z.to_nat retries) 0 s0)
    as (res & s1 & evs & Hloop & Htr & _ & _ & _ & _ & Hwl).
  exists l, s0, res, s1, evs. rewrite Htr0 in Htr.
  repeat (split; [assumption|]).
  rewrite resolve_limiter_run in Hres.
  destruct (endpoint_limits s !! url); injection Hres as <- <-; auto.
Qed.

(** C5: on a [LastRequestRateLimitedRequest] whose interval is the number
    [limit], [wait] reads the clock, takes [elapsed] as that reading minus
    [last_request_time], sleeps exactly [limit - elapsed] when
    [elapsed < limit] and not at all otherwise, and stores the clock as
    read after the sleep.  With a clock that never runs backwards, that
    time stamp is at least [limit] after the previous one, and the next
    [wait] on the instance, whatever happened in between to the rest of
    the state, completes at least [limit] after this one. *)
Theorem wait_spaces_requests (env : Env) (s : State) (l : loc)
    (rl : value) (t0 limit : Q) :
  (forall k, 0 <= lag env k)%Q ->
  heap s !! l = Some (LastRequest_obj rl t0) ->
  as_number rl = Some limit ->
  let current_time := (now s + lag env (ticks s))%Q in
  let elapsed := (current_time - t0)%Q in
  exists s1,
    wait env l s = (Ok tt, s1) /\
    trace s1 = trace s ++ EvWait l ::
      (if Qlt_bool elapsed limit
       then [EvSleep RateLimitSleep (limit - elapsed)%Q] else []) /\
    heap s1 = <[l := LastRequest_obj rl (now s1)]> (heap s) /\
    (Qlt_bool elapsed limit = true -> current_time + (limit - elapsed) <= now s1)%Q /\
    (current_time <= now s1)%Q /\
    (t0 + limit <= now s1)%Q /\
    forall s', heap s' !! l = heap s1 !! l ->
      exists s2,
        wait env l s' = (Ok tt, s2) /\
        heap s2 !! l = Some (LastRequest_obj rl (now s2)) /\
        (now s1 + limit <= now s2)%Q.
Proof.
  intros Hlag Hl Hn current_time elapsed.
  assert (forall (s : State) (t : Q),
            heap s !! l = Some (LastRequest_obj rl t) ->
            let c := (now s + lag env (ticks s))%Q in
            exists s1,
              wait env l s = (Ok tt, s1) /\
              trace s1 = trace s ++ EvWait l ::
                (if Qlt_bool (c - t) limit
                 then [EvSleep RateLimitSleep (limit - (c - t))%Q] else []) /\
              heap s1 = <[l := LastRequest_obj rl (now s1)]> (heap s) /\
              (Qlt_bool (c - t) limit = true -> c + (limit - (c - t)) <= now s1)%Q /\
              (c <= now s1)%Q /\ (t + limit <= now s1)%Q) as Hstep.
  { clear s Hl current_time elapsed. intros s t Hl c.
    destruct (LastRequest_wait_run env s l rl t limit Hl Hn)
      as (s1 & Hrun & Htr & Hheap & Hnow & _).
    fold c in Htr, Hnow. exists s1.
    split; [exact Hrun|]. split; [exact Htr|]. split; [exact Hheap|].
    pose proof (Hlag (ticks s)) as H0.
    pose proof (Hlag (S (ticks s))) as H1.
    pose proof (Hlag (S (S (ticks s)))) as H2.
    destruct (Qlt_bool (c - t) limit) eqn:E; rewrite Hnow.
    - apply Qlt_bool_true in E. split; [intros _|split]; lra.
    - apply Qlt_bool_false in E. split; [discriminate|split]; lra. }
  destruct (Hstep s t0 Hl) as (s1 & Hrun & Htr & Hheap & Hslept & Hafter & Hgap).
  exists s1. repeat (split; [assumption|]).
  assert (heap s1 !! l = Some (LastRequest_obj rl (now s1))) as Hl1.
  { rewrite Hheap. apply list_lookup_insert_eq. eapply lookup_lt_Some, Hl. }
  intros s' Hl'. rewrite Hl1 in Hl'.
  destruct (Hstep s' (now s1) Hl') as (s2 & Hrun2 & _ & Hheap2 & _ & _ & Hgap2).
  exists s2. split; [exact Hrun2|]. split; [|exact Hgap2].
  rewrite Hheap2. apply list_lookup_insert_eq. eapply lookup_lt_Some, Hl'.
Qed.

(** C10: when [url] has no registry entry and the [rate_limit] of the call
    is a strategy instance, that instance is not the limiter: [request]
    hands it to the configured class as its constructor argument, every
    [wait] of the call is on the new object, the first thing an attempt
    does is that [wait], and the instance itself is left as it was. *)
Theorem request_wraps_a_strategy_instance (env : Env) (method url : string)
    (inst : loc) (retries : Z) (kw : kwargs) (s : State) :
  endpoint_limits s !! url = None ->
  is_Some (heap s !! inst) ->
  let wrapper := length (heap s) in
  exists s0 res s1 evs,
    resolve_limiter url (VRef inst) s = (Ok wrapper, s0) /\
    wrapper <> inst /\
    heap s0 = heap s ++ [init (rate_limit_strategy s) (VRef inst)] /\
    request env method url (VRef inst) retries kw s = (res, s1) /\
    trace s1 = trace s ++ evs /\
    Forall (fun l' => l' = wrapper) (waits evs) /\
    (1 <= retries -> exists evs', evs = EvWait wrapper :: evs') /\
    heap s1 !! inst = heap s !! inst.
Proof.
  intros Hnone Hinst wrapper.
  assert (inst < length (heap s))%nat as Hlt.
  { destruct Hinst as [o Ho]. eapply lookup_lt_Some, Ho. }
  destruct (request_run env method url (VRef inst) retries kw s)
    as (l & s0 & Hres & -> & Htr0 & _ & _ & Hframe0).
  pose proof Hres as Hres'. rewrite resolve_limiter_run, Hnone in Hres'.
  injection Hres' as <- <-. fold wrapper in Hres |- *.
  destruct (for_range_run env wrapper method url kw retries (Z.to_nat retries) 0
              (with_heap (heap s ++ [init (rate_limit_strategy s) (VRef inst)]) s))
    as (res & s1 & evs & Hloop & Htr & Hfr & Hfirst & _ & _ & Hwl).
  eexists _, res, s1, evs. split; [exact Hres|].
  split; [unfold wrapper; lia|]. split; [reflexivity|].
  split; [exact Hloop|]. split; [exact Htr|]. split; [exact Hwl|].
  split; [intros Hr; apply Hfirst; lia|].
  rewrite Hfr by (unfold wrapper; lia). simpl. apply lookup_app_l. exact Hlt.
Qed.

(** * The claims at concrete inputs *)

Lemma registered_client_well_typed (rate_limit : value) :
  request_well_typed registered_client example_url rate_limit.
Proof.
  change (limiter_ok registered_client 0%nat).
  exists (LastRequest_obj (VInt 2) 0). split; [reflexivity|].
  simpl. eauto.
Defined.


Lemma request_returns_first_response_witness :
  exists s1 evs,
    request third_time_lucky "GET" example_url (VInt 5) 4 [] registered_client
      = (Ok (Some not_found), s1) /\
    trace s1 = trace registered_client ++ evs /\
    length (sends evs) = 3%nat /\
    sent s1 = (sent registered_client + 3)%nat /\
    exists pre,
      evs = pre ++ [EvSend (sent registered_client + (3 - 1))%nat "GET" example_url []].
Proof.
  apply (request_returns_first_response third_time_lucky "GET" example_url
           (VInt 5) 4 [] registered_client 3 not_found).
  - lia.
  - lia.
  - apply registered_client_well_typed.
  - intros i Hi. exists "Timeout"%string. simpl in *.
    destruct i as [|[|i]]; [reflexivity|reflexivity|lia].
  - reflexivity.
Defined.

Lemma request_without_attempts_witness :
  exists s1,
    request always_down "GET" example_url (VInt 5) 0 [] fresh_client
      = (Ok None, s1) /\
    trace s1 = trace fresh_client /\ sent s1 = sent fresh_client /\
    now s1 = now fresh_client.
Proof.
  apply (request_without_attempts always_down "GET" example_url (VInt 5) 0 []
           fresh_client).
  lia.
Defined.

Lemma wait_spaces_requests_witness :
  exists s1,
    wait always_down 0%nat registered_client = (Ok tt, s1) /\
    trace s1 = trace registered_client ++ EvWait 0%nat ::
      (if Qlt_bool (now registered_client + lag always_down (ticks registered_client) - 0) 2
       then [EvSleep RateLimitSleep
               (2 - (now registered_client + lag always_down (ticks registered_client) - 0))%Q]
       else []) /\
    heap s1 = <[0%nat := LastRequest_obj (VInt 2) (now s1)]> (heap registered_client) /\
    (Qlt_bool (now registered_client + lag always_down (ticks registered_client) - 0) 2 = true ->
     now registered_client + lag always_down (ticks registered_client)
       + (2 - (now registered_client + lag always_down (ticks registered_client) - 0))
       <= now s1)%Q /\
    (now registered_client + lag always_down (ticks registered_client) <= now s1)%Q /\
    (0 + 2 <= now s1)%Q /\
    forall s', heap s' !! 0%nat = heap s1 !! 0%nat ->
      exists s2,
        wait always_down 0%nat s' = (Ok tt, s2) /\
        heap s2 !! 0%nat = Some (LastRequest_obj (VInt 2) (now s2)) /\
        (now s1 + 2 <= now s2)%Q.
Proof.
  apply (wait_spaces_requests always_down registered_client 0%nat (VInt 2) 0 2).
  - intros k. simpl. lra.
  - reflexivity.
  - reflexivity.
Defined.

Lemma request_wraps_a_strategy_instance_witness :
  exists s0 res s1 evs,
    resolve_limiter example_url (VRef 0%nat) fresh_client
      = (Ok (length (heap fresh_client)), s0) /\
    length (heap fresh_client) <> 0%nat /\
    heap s0 = heap fresh_client ++
      [init (rate_limit_strategy fresh_client) (VRef 0%nat)] /\
    request always_down "GET" example_url (VRef 0%nat) 2 [] fresh_client
      = (res, s1) /\
    trace s1 = trace fresh_client ++ evs /\
    Forall (fun l' => l' = length (heap fresh_client)) (waits evs) /\
    (1 <= 2 -> exists evs', evs = EvWait (length (heap fresh_client)) :: evs') /\
    heap s1 !! 0%nat = heap fresh_client !! 0%nat.
Proof.
  apply (request_wraps_a_strategy_instance always_down "GET" example_url
           0%nat 2 [] fresh_client).
  - reflexivity.
  - eexists. reflexivity.
Defined.


(** ** Scenarios *)

(** Two timeouts, then a 404: the response is returned as it is, after
    three waits, three sends and backoffs of 1 and 2; the second wait
    sleeps for what the first backoff left of the interval. *)
Example flaky_transport_run :
  let '(res, s1) :=
    request third_time_lucky "GET" example_url VNone 5 [] registered_client in
  res = Ok (Some not_found) /\
  trace s1 =
    [EvWait 0%nat; EvSend 0 "GET" example_url [];
     EvSleep BackoffSleep 1;
     EvWait 0%nat; EvSleep RateLimitSleep 1; EvSend 1 "GET" example_url [];
     EvSleep BackoffSleep 2;
     EvWait 0%nat; EvSend 2 "GET" example_url []].
Proof. vm_compute. split; reflexivity. Qed.

(** Three GETs in a row on an endpoint limited to one request every two
    time units: three sends over four time units. *)
Example three_requests_in_a_row :
  let get := request always_up "GET" example_url VNone 1 [] in
  let '(_, s1) := (get ;; get ;; get) registered_client in
  sent s1 = 3%nat /\ (now s1 - now registered_client == 4)%Q /\
  backoffs (trace s1) = [] /\ waits (trace s1) = [0; 0; 0]%nat.
Proof. vm_compute. repeat split; reflexivity. Qed.

(** A strategy instance passed as the [rate_limit] of a call becomes the
    interval of a new [LastRequestRateLimitedRequest], whose [wait] then
    compares a time with an object. *)
Example wrapped_instance_run :
  let '(res, s1) :=
    request always_up "GET" example_url (VRef 0%nat) 1 [] fresh_client in
  res = Raise TypeError /\ trace s1 = [EvWait 1%nat] /\
  heap s1 = [LastRequest_obj (VInt 2) 0; LastRequest_obj (VRef 0%nat) 0].
Proof. vm_compute. repeat split; reflexivity. Qed.

(** * Further properties *)

(** ** Relations every step keeps *)

Section Respects.

Variable R : State -> State -> Prop.
Hypothesis R_refl : forall s, R s s.
Hypothesis R_trans : forall s1 s2 s3, R s1 s2 -> R s2 s3 -> R s1 s3.

Lemma respects_ret {A} (a : A) : respects R (ret a).
Proof. intros s. apply R_refl. Qed.

Lemma respects_raise {A} (e : exn) : respects R (@raise A e).
Proof. intros s. apply R_refl. Qed.

Lemma respects_gets {A} (f : State -> A) : respects R (gets f).
Proof. intros s. apply R_refl. Qed.

Lemma respects_bind {A B} (m : M A) (k : A -> M B) :
  respects R m -> (forall a, respects R (k a)) -> respects R (bind m k).
Proof.
  intros Hm Hk s. specialize (Hm s). unfold bind.
  destruct (m s) as [[a|e] s1]; simpl in *.
  - eapply R_trans; [exact Hm|]. apply Hk.
  - exact Hm.
Qed.

Lemma respects_try_except {A} (body : M A) (caught : exn -> bool)
    (handler : exn -> M A) :
  respects R body -> (forall e, respects R (handler e)) ->
  respects R (try_except body caught handler).
Proof.
  intros Hb Hh s. specialize (Hb s). unfold try_except.
  destruct (body s) as [[a|e] s1]; simpl in *; [exact Hb|].
  destruct (caught e); [|exact Hb].
  eapply R_trans; [exact Hb|]. apply Hh.
Qed.

Variable env : Env.
Hypothesis R_time_time : respects R (time_time env).
Hypothesis R_time_sleep : forall site d, respects R (time_sleep env site d).
Hypothesis R_log_wait : forall l, respects R (log (EvWait l)).
Hypothesis R_session_request :
  forall method url kw, respects R (session_request env method url kw).
Hypothesis R_heap :
  forall f : State -> list obj, respects R (modify (fun s => with_heap (f s) s)).

Lemma respects_new (cls : strategy_class) (rate_limit : value) :
  respects R (new cls rate_limit).
Proof.
  unfold new. apply respects_bind; [apply respects_gets|]. intros h.
  apply respects_bind; [|intros; apply respects_ret].
  exact (R_heap (fun _ => h ++ [init cls rate_limit])).
Qed.

Lemma respects_wait (l : loc) : respects R (wait env l).
Proof.
  unfold wait. apply respects_bind; [apply R_log_wait|]. intros _.
  apply respects_bind; [apply respects_gets|]. intros h.
  destruct (h !! l) as [[rl t|]|]; [|apply respects_ret|apply respects_raise].
  unfold LastRequestRateLimitedRequest_wait.
  apply respects_bind; [apply R_time_time|]. intros current_time.
  destruct (as_number rl) as [limit|]; [|apply respects_raise].
  apply respects_bind.
  { destruct (Qlt_bool _ _); [apply R_time_sleep|apply respects_ret]. }
  intros _. apply respects_bind; [apply R_time_time|]. intros t1.
  exact (R_heap (fun s => <[l := LastRequest_obj rl t1]> (heap s))).
Qed.

Lemma respects_attempt (l : loc) (method url : string) (kw : kwargs)
    (retries retry : Z) :
  respects R (attempt env l method url kw retries retry).
Proof.
  unfold attempt. apply respects_bind; [apply respects_wait|]. intros _.
  apply respects_try_except.
  - apply respects_bind; [apply R_session_request|].
    intros r. apply respects_ret.
  - intros e. destruct (retry =? retries - 1); [apply respects_raise|].
    apply respects_bind; [apply R_time_sleep|]. intros _. apply respects_ret.
Qed.

Lemma respects_for_range (n : nat) (body : Z -> M (option Response)) :
  (forall retry, respects R (body retry)) ->
  forall retry, respects R (for_range n retry body).
Proof.
  intros Hbody. induction n as [|n IH]; intros retry; simpl.
  - apply respects_ret.
  - apply respects_bind; [apply Hbody|].
    intros [v|]; [apply respects_ret|apply IH].
Qed.

Lemma respects_resolve_limiter (url : string) (rate_limit : value) :
  respects R (resolve_limiter url rate_limit).
Proof.
  unfold resolve_limiter, _get_request_group.
  apply respects_bind; [apply respects_gets|]. intros limiter.
  apply respects_bind.
  - destruct (negb _ && truthy rate_limit); [|apply respects_ret].
    apply respects_bind; [apply respects_gets|]. intros cls.
    apply respects_bind; [apply respects_new|]. intros l. apply respects_ret.
  - intros [l|]; [apply respects_ret|apply respects_new].
Qed.

Lemma respects_request (method url : string) (rate_limit : value)
    (retries : Z) (kw : kwargs) :
  respects R (request env method url rate_limit retries kw).
Proof.
  unfold request. apply respects_bind; [apply respects_resolve_limiter|].
  intros l. apply respects_for_range. intros retry. apply respects_attempt.
Qed.

End Respects.

(** ** The registry is never written *)

Lemma same_registry_refl (s : State) : same_registry s s.
Proof. split; reflexivity. Qed.

Lemma same_registry_trans (s1 s2 s3 : State) :
  same_registry s1 s2 -> same_registry s2 s3 -> same_registry s1 s3.
Proof. intros [H1 H2] [H3 H4]. split; congruence. Qed.

Lemma request_same_registry (env : Env) (method url : string)
    (rate_limit : value) (retries : Z) (kw : kwargs) :
  respects same_registry (request env method url rate_limit retries kw).
Proof.
  apply respects_request.
  - apply same_registry_refl.
  - apply same_registry_trans.
  - intros s. split; reflexivity.
  - intros site d s. unfold time_sleep.
    destruct (Qlt_bool d 0); split; reflexivity.
  - intros l s. split; reflexivity.
  - intros m u k s. unfold session_request, bind, gets, log, modify, tick.
    simpl. destruct (transport env (sent s) m u k); split; reflexivity.
  - intros f s. split; reflexivity.
Qed.

(** ** The clock and the sleeps *)

Lemma sleep_durations_app (a b : list event) :
  sleep_durations (a ++ b) = sleep_durations a ++ sleep_durations b.
Proof.
  induction a as [|[l|site d|i m u k] a IH]; simpl; rewrite ?IH; reflexivity.
Qed.

Lemma Qsum_app (a b : list Q) : (Qsum (a ++ b) == Qsum a + Qsum b)%Q.
Proof.
  induction a as [|d a IH]; simpl.
  - lra.
  - rewrite IH. lra.
Qed.

Lemma elapses_refl (s : State) : elapses s s.
Proof.
  exists []. rewrite app_nil_r. split; [reflexivity|].
  split; [constructor|]. simpl. lra.
Qed.

Lemma elapses_trans (s1 s2 s3 : State) :
  elapses s1 s2 -> elapses s2 s3 -> elapses s1 s3.
Proof.
  intros (a & Ha & Hpa & Hta) (b & Hb & Hpb & Htb).
  exists (a ++ b). split; [rewrite Hb, Ha, app_assoc; reflexivity|].
  rewrite sleep_durations_app. split; [apply Forall_app; auto|].
  pose proof (Qsum_app (sleep_durations a) (sleep_durations b)) as Hsum.
  lra.
Qed.

Lemma request_elapses (env : Env) (method url : string)
    (rate_limit : value) (retries : Z) (kw : kwargs) :
  (forall k, 0 <= lag env k)%Q ->
  respects elapses (request env method url rate_limit retries kw).
Proof.
  intros Hlag. apply respects_request.
  - apply elapses_refl.
  - apply elapses_trans.
  - intros s. exists []. simpl. rewrite app_nil_r.
    split; [reflexivity|]. split; [constructor|].
    pose proof (Hlag (ticks s)). simpl. lra.
  - intros site d s. unfold time_sleep.
    destruct (Qlt_bool d 0) eqn:E; [apply elapses_refl|].
    apply Qlt_bool_false in E.
    exists [EvSleep site d]. simpl. split; [reflexivity|].
    split; [repeat constructor; exact E|].
    pose proof (Hlag (ticks s)). lra.
  - intros l s. exists [EvWait l]. simpl. split; [reflexivity|].
    split; [constructor|]. lra.
  - intros m u k s. exists [EvSend (sent s) m u k].
    unfold session_request, bind, gets, log, modify, tick. simpl.
    pose proof (Hlag (ticks s)).
    destruct (transport env (sent s) m u k); simpl;
      (split; [reflexivity|]); (split; [constructor|]); lra.
  - intros f s. exists []. simpl. rewrite app_nil_r.
    split; [reflexivity|]. split; [constructor|]. lra.
Qed.

(** ** More on [wait] and on one attempt *)

Section MoreFacts.

Variable env : Env.

Lemma wait_Default_run (s : State) (l : loc) :
  heap s !! l = Some Default_obj ->
  wait env l s = (Ok tt, with_trace (trace s ++ [EvWait l]) s).
Proof.
  intros Hl. unfold wait, bind, log, modify, gets. simpl. rewrite Hl.
  reflexivity.
Qed.

Lemma wait_TypeError_run (s : State) (l : loc) (rl : value) (t : Q) :
  heap s !! l = Some (LastRequest_obj rl t) ->
  as_number rl = None ->
  exists s1,
    wait env l s = (Raise TypeError, s1) /\
    trace s1 = trace s ++ [EvWait l] /\
    sent s1 = sent s /\ heap s1 = heap s.
Proof.
  intros Hl Hn. unfold wait, bind, log, modify, gets. simpl. rewrite Hl.
  unfold LastRequestRateLimitedRequest_wait, time_time, tick, bind,
    modify, gets. simpl. rewrite Hn.
  eexists. split; [reflexivity|]. simpl. auto.
Qed.

(** With a clock that never runs backwards, a [wait] on an instance of
    interval [limit] stamps it at least [limit] after its last stamp. *)
Lemma LastRequest_wait_gap (s : State) (l : loc) (rl : value) (t limit : Q) :
  (forall k, 0 <= lag env k)%Q ->
  heap s !! l = Some (LastRequest_obj rl t) ->
  as_number rl = Some limit ->
  exists s1,
    wait env l s = (Ok tt, s1) /\
    heap s1 !! l = Some (LastRequest_obj rl (now s1)) /\
    (t + limit <= now s1)%Q /\
    (now s <= now s1)%Q /\
    (limit <= now s - t -> trace s1 = trace s ++ [EvWait l])%Q.
Proof.
  intros Hlag Hl Hn.
  destruct (LastRequest_wait_run env s l rl t limit Hl Hn)
    as (s1 & Hrun & Htr & Hheap & Hnow & _).
  exists s1. split; [exact Hrun|]. split.
  { rewrite Hheap. apply list_lookup_insert_eq. eapply lookup_lt_Some, Hl. }
  pose proof (Hlag (ticks s)) as H0.
  pose proof (Hlag (S (ticks s))) as H1.
  pose proof (Hlag (S (S (ticks s)))) as H2.
  destruct (Qlt_bool (now s + lag env (ticks s) - t) limit) eqn:E;
    rewrite Hnow.
  - apply Qlt_bool_true in E. split; [lra|]. split; [lra|].
    intros Hdue. lra.
  - apply Qlt_bool_false in E. split; [lra|]. split; [lra|].
    intros _. exact Htr.
Qed.

Section MoreLoop.

Variables (limiter : loc) (method url : string) (kw : kwargs) (retries : Z).

(** What an attempt does once its [wait] has returned. *)
Lemma attempt_after_wait (s sw : State) (retry : Z) :
  wait env limiter s = (Ok tt, sw) ->
  exists r s1 tail,
    attempt env limiter method url kw retries retry s = (r, s1) /\
    trace s1 = trace sw ++ tail /\
    attempt_case env method url kw retries (sent sw) retry r tail /\
    sent s1 = S (sent sw) /\
    heap s1 = heap sw.
Proof.
  intros Hw. unfold attempt, bind. rewrite Hw.
  destruct (session_request_run env sw method url kw)
    as (s2 & Hs & Htr2 & Hsent2 & Hheap2).
  unfold try_except, bind. rewrite Hs.
  destruct (transport env (sent sw) method url kw) as [r|e] eqn:Ht.
  - exists (Ok (Some r)), s2. eexists. split; [reflexivity|].
    split; [exact Htr2|]. split; [constructor; exact Ht|]. auto.
  - destruct e as [k| | | |k];
      try (eexists _, s2, _; split; [reflexivity|]; split; [exact Htr2|];
           split; [apply attempt_propagates; [exact Ht|discriminate]|]; auto).
    destruct (retry =? retries - 1) eqn:Elast.
    + exists (Raise (RequestException k)), s2. eexists.
      split; [reflexivity|]. split; [exact Htr2|].
      split; [|auto]. apply attempt_propagates; [exact Ht|]. intros _ _. lia.
    + destruct (backoff_sleep_run env s2 retry) as (s3 & Hb & Htr3 & Hsent3 & Hheap3).
      rewrite Hb. exists (Ok None), s3. eexists.
      split; [reflexivity|].
      split; [rewrite Htr3, Htr2, <- app_assoc; reflexivity|].
      split; [eapply attempt_backs_off; [exact Ht|lia]|].
      split; congruence.
Qed.

(** The sends of the attempts [0 .. k - 1] of a call that found the send
    counter at [i]. *)
Lemma sends_schedule_S (i k : nat) :
  List.map (fun j => EvSend (i + j) method url kw) (seq 0 (S k)) =
  EvSend i method url kw ::
  List.map (fun j => EvSend (S i + j) method url kw) (seq 0 k).
Proof.
  simpl. rewrite Nat.add_0_r. f_equal.
  rewrite <- seq_shift, List.map_map. apply List.map_ext.
  intros j. f_equal. lia.
Qed.

(** However the loop ends: its sends carry the arguments of the call and
    consecutive numbers, there are at most as many as iterations, every
    send has its [wait] and at most one [wait] has no send, and the backoff
    sleeps follow the schedule, one less than the iterations at most. *)
Lemma for_range_counts (n : nat) : forall (retry : Z) (s : State),
  retry + Z.of_nat n = retries ->
  exists res s1 evs,
    for_range n retry (attempt env limiter method url kw retries) s = (res, s1) /\
    trace s1 = trace s ++ evs /\
    sent s1 = (sent s + length (sends evs))%nat /\
    sends evs =
      List.map (fun j => EvSend (sent s + j) method url kw)
        (seq 0 (length (sends evs))) /\
    backoffs evs = backoff_schedule retry (length (backoffs evs)) /\
    (length (sends evs) <= length (waits evs) <= S (length (sends evs)))%nat /\
    (length (waits evs) <= n)%nat /\
    (length (backoffs evs) <= n - 1)%nat /\
    (length (backoffs evs) <= length (sends evs))%nat.
Proof.
  induction n as [|n IH]; intros retry s Hretry.
  - exists (Ok None), s, []. simpl. rewrite app_nil_r, Nat.add_0_r.
    repeat split; auto.
  - destruct (attempt_run env limiter method url kw retries s retry)
      as (r & s1 & ws & Hrun & Hws & _ & Hcase).
    rewrite for_range_S, Hrun.
    destruct Hcase as [(e & -> & Htr & Hsent & _)|(tail & Htr & Hsent & Hcase & _)].
    + exists (Raise e), s1, (EvWait limiter :: ws ++ []).
      split; [reflexivity|]. split; [rewrite app_nil_r; exact Htr|].
      rewrite attempt_log_sends, attempt_log_waits, attempt_log_backoffs
        by exact Hws.
      simpl. rewrite Nat.add_0_r. repeat split; auto; lia.
    + inversion Hcase as [r' Ht|e Ht Hlast|k Ht Hnot]; subst.
      * exists (Ok (Some r')), s1. eexists. split; [reflexivity|].
        split; [exact Htr|].
        rewrite attempt_log_sends, attempt_log_waits, attempt_log_backoffs
          by exact Hws.
        simpl. rewrite Nat.add_0_r. repeat split; auto; lia.
      * exists (Raise e), s1. eexists. split; [reflexivity|].
        split; [exact Htr|].
        rewrite attempt_log_sends, attempt_log_waits, attempt_log_backoffs
          by exact Hws.
        simpl. rewrite Nat.add_0_r. repeat split; auto; lia.
      * destruct (IH (retry + 1) s1)
          as (res & s2 & evs & Hloop & Htr2 & Hsent2 & Hsends & Hbk & Hws2 & Hwn & Hbn & Hbs).
        { lia. }
        rewrite Hloop. exists res, s2. eexists. split; [reflexivity|].
        split; [rewrite Htr2, Htr, <- app_assoc; reflexivity|].
        rewrite sends_app, waits_app, backoffs_app.
        rewrite attempt_log_sends, attempt_log_waits, attempt_log_backoffs
          by exact Hws.
        cbn [sends List.filter is_send waits backoffs app length].
        fold (sends evs).
        rewrite sends_schedule_S, backoff_schedule_S, <- Hsent, <- Hsends, <- Hbk.
        repeat split; auto; lia.
Qed.

(** On the no-op strategy every [wait] returns at once: no rate-limit
    sleep is logged and every [wait] is followed by its send. *)
Lemma for_range_Default (n : nat) : forall (retry : Z) (s : State),
  heap s !! limiter = Some Default_obj ->
  exists res s1 evs,
    for_range n retry (attempt env limiter method url kw retries) s = (res, s1) /\
    trace s1 = trace s ++ evs /\
    Forall (fun e => ~ is_rate_sleep e) evs /\
    length (waits evs) = length (sends evs).
Proof.
  induction n as [|n IH]; intros retry s Hl.
  - exists (Ok None), s, []. simpl. rewrite app_nil_r. auto.
  - destruct (attempt_after_wait s _ retry (wait_Default_run s limiter Hl))
      as (r & s1 & tail & Hrun & Htr & Hcase & Hsent & Hheap).
    simpl in Htr, Hheap. rewrite for_range_S, Hrun.
    inversion Hcase as [r' Ht|e Ht Hlast|k Ht Hnot]; subst.
    + exists (Ok (Some r')), s1. eexists. split; [reflexivity|].
      split; [rewrite Htr, <- app_assoc; reflexivity|].
      split; [repeat constructor; auto|reflexivity].
    + exists (Raise e), s1. eexists. split; [reflexivity|].
      split; [rewrite Htr, <- app_assoc; reflexivity|].
      split; [repeat constructor; auto|reflexivity].
    + destruct (IH (retry + 1) s1) as (res & s2 & evs & Hloop & Htr2 & Hno & Hlen).
      { rewrite Hheap. exact Hl. }
      rewrite Hloop. exists res, s2. eexists. split; [reflexivity|].
      split; [rewrite Htr2, Htr, <- !app_assoc; reflexivity|].
      split.
      * simpl. repeat (constructor; [simpl; auto|]). exact Hno.
      * simpl. fold (sends evs). rewrite Hlen. reflexivity.
Qed.

(** On an instance of a non-negative interval [limit], with a clock that
    never runs backwards, every iteration moves the stamp of the instance
    on by [limit] at least. *)
Lemma for_range_stamps (rl : value) (limit : Q) (n : nat) :
  (forall k, 0 <= lag env k)%Q ->
  as_number rl = Some limit ->
  (0 <= limit)%Q ->
  forall (retry : Z) (s : State) (t : Q),
    heap s !! limiter = Some (LastRequest_obj rl t) ->
    exists res s1 t1,
      for_range n retry (attempt env limiter method url kw retries) s = (res, s1) /\
      heap s1 !! limiter = Some (LastRequest_obj rl t1) /\
      (t <= t1)%Q /\
      ((0 < n)%nat -> t + limit <= t1)%Q.
Proof.
  intros Hlag Hn Hlimit. induction n as [|n IH]; intros retry s t Hl.
  - exists (Ok None), s, t. simpl. split; [reflexivity|].
    split; [exact Hl|]. split; [lra|]. lia.
  - destruct (LastRequest_wait_gap s limiter rl t limit Hlag Hl Hn)
      as (sw & Hw & Hlw & Hgap & _ & _).
    destruct (attempt_after_wait s sw retry Hw)
      as (r & s1 & tail & Hrun & _ & Hcase & _ & Hheap).
    rewrite <- Hheap in Hlw. rewrite for_range_S, Hrun.
    destruct r as [[v|]|e].
    + exists (Ok (Some v)), s1, (now sw). split; [reflexivity|].
      split; [exact Hlw|]. split; [lra|]. intros _. exact Hgap.
    + destruct (IH (retry + 1) s1 (now sw) Hlw)
        as (res & s2 & t1 & Hloop & Hl2 & Hle & _).
      exists res, s2, t1. split; [exact Hloop|]. split; [exact Hl2|].
      split; [lra|]. intros _. lra.
    + exists (Raise e), s1, (now sw). split; [reflexivity|].
      split; [exact Hlw|]. split; [lra|]. intros _. exact Hgap.
Qed.

End MoreLoop.

End MoreFacts.

Lemma backoffs_le_sleeps (evs : list event) :
  Forall (fun d => 0 <= d)%Q (sleep_durations evs) ->
  (Qsum (backoffs evs) <= Qsum (sleep_durations evs))%Q.
Proof.
  induction evs as [|[l|[|] d|i m u k] evs IH]; simpl; intros H.
  - lra.
  - auto.
  - inversion H; subst. specialize (IH ltac:(assumption)). lra.
  - inversion H; subst. specialize (IH ltac:(assumption)). lra.
  - auto.
Qed.

Lemma request_counts (env : Env) (method url : string) (rate_limit : value)
    (retries : Z) (kw : kwargs) (s : State) :
  exists res s1 evs,
    request env method url rate_limit retries kw s = (res, s1) /\
    trace s1 = trace s ++ evs /\
    sent s1 = (sent s + length (sends evs))%nat /\
    sends evs =
      List.map (fun j => EvSend (sent s + j) method url kw)
        (seq 0 (length (sends evs))) /\
    backoffs evs = backoff_schedule 0 (length (backoffs evs)) /\
    (length (sends evs) <= length (waits evs) <= S (length (sends evs)))%nat /\
    (length (waits evs) <= Z.to_nat retries)%nat /\
    (length (backoffs evs) <= Z.to_nat retries - 1)%nat /\
    (length (backoffs evs) <= length (sends evs))%nat.
Proof.
  destruct (request_run env method url rate_limit retries kw s)
    as (l & s0 & _ & -> & Htr0 & Hsent0 & _).
  destruct (Z.to_nat retries) as [|n] eqn:En.
  - exists (Ok None), s0, []. simpl. rewrite app_nil_r, Nat.add_0_r.
    repeat split; auto.
  - destruct (for_range_counts env l method url kw retries (S n) 0 s0)
      as (res & s1 & evs & Hloop & Htr & Hrest); [lia|].
    exists res, s1, evs. rewrite Hsent0, Htr0 in *. auto.
Qed.

(** * Further theorems *)

(** X1: an exception of the transport that is not a [RequestException]
    is not retried: the first attempt raises it to the caller, after one
    send and without any backoff, whatever [retries] is. *)
Theorem request_propagates_other_exceptions (env : Env) (method url : string)
    (rate_limit : value) (retries : Z) (kw : kwargs) (s : State) (e : exn) :
  1 <= retries ->
  request_well_typed s url rate_limit ->
  transport env (sent s) method url kw = Fails e ->
  (forall k, e <> RequestException k) ->
  exists s1 evs,
    request env method url rate_limit retries kw s = (Raise e, s1) /\
    trace s1 = trace s ++ evs /\
    length (sends evs) = 1%nat /\
    backoffs evs = [] /\
    sent s1 = S (sent s).
Proof.
  intros Hretries Hwt Ht Hother.
  destruct (request_run env method url rate_limit retries kw s)
    as (l & s0 & Hres & -> & Htr0 & Hsent0 & _).
  destruct (resolve_limiter_ok _ _ _ _ _ Hwt Hres) as (Hok & _ & _).
  destruct (Z.to_nat retries) as [|n] eqn:En; [lia|].
  destruct (attempt_run env l method url kw retries s0 0)
    as (r & s1 & ws & Hrun & Hws & _ & Hcase).
  rewrite for_range_S, Hrun.
  destruct Hcase as [(e' & _ & _ & _ & Hbad)|(tail & Htr & Hsent & Hcase & _)];
    [contradiction|].
  rewrite Hsent0 in Hcase, Hsent. rewrite Htr0 in Htr.
  inversion Hcase as [r' Ht'|e' Ht' Hlast|k Ht' Hnot]; subst.
  - congruence.
  - rewrite Ht in Ht'. injection Ht' as <-.
    exists s1. eexists. split; [reflexivity|]. split; [exact Htr|].
    rewrite attempt_log_sends, attempt_log_backoffs by exact Hws. auto.
  - rewrite Ht in Ht'. injection Ht' as ->. exfalso. eapply Hother. reflexivity.
Qed.

(** X2: on a client built with [LastRequestRateLimitedRequest], a call to
    an unregistered url with a truthy [rate_limit] that is not a number (a
    string, a strategy instance) raises [TypeError] from the first [wait]:
    nothing is sent, whatever [retries >= 1] is. *)
Theorem request_raises_TypeError_before_sending (env : Env) (method url : string)
    (rate_limit : value) (retries : Z) (kw : kwargs) (s : State) :
  1 <= retries ->
  endpoint_limits s !! url = None ->
  rate_limit_strategy s = LastRequestRateLimitedRequest ->
  truthy rate_limit = true ->
  as_number rate_limit = None ->
  exists s1,
    request env method url rate_limit retries kw s = (Raise TypeError, s1) /\
    trace s1 = trace s ++ [EvWait (length (heap s))] /\
    sent s1 = sent s.
Proof.
  intros Hretries Hnone Hcls Htruthy Hnum.
  destruct (request_run env method url rate_limit retries kw s)
    as (l & s0 & Hres & -> & Htr0 & Hsent0 & _).
  rewrite resolve_limiter_run, Hnone, Htruthy, Hcls in Hres.
  injection Hres as <- <-.
  destruct (Z.to_nat retries) as [|n] eqn:En; [lia|].
  destruct (wait_TypeError_run env
              (with_heap (heap s ++ [LastRequest_obj rate_limit 0]) s)
              (length (heap s)) rate_limit 0)
    as (s1 & Hw & Htr & Hsent & _).
  { simpl. apply list_lookup_middle. reflexivity. }
  { exact Hnum. }
  rewrite for_range_S. unfold attempt, bind. rewrite Hw.
  exists s1. split; [reflexivity|]. simpl in Htr, Hsent. auto.
Qed.

(** X3: on a client built with the default strategy class, a call to an
    unregistered url is never rate limited, whatever its [rate_limit] is:
    no rate-limit sleep is logged, and no [wait] fails, every one of them
    being followed by its send. *)
Theorem default_strategy_never_rate_limits (env : Env) (method url : string)
    (rate_limit : value) (retries : Z) (kw : kwargs) (s : State) :
  endpoint_limits s !! url = None ->
  rate_limit_strategy s = DefaultRateLimitedRequest ->
  exists res s1 evs,
    request env method url rate_limit retries kw s = (res, s1) /\
    trace s1 = trace s ++ evs /\
    Forall (fun e => ~ is_rate_sleep e) evs /\
    length (waits evs) = length (sends evs).
Proof.
  intros Hnone Hcls.
  destruct (request_run env method url rate_limit retries kw s)
    as (l & s0 & Hres & -> & Htr0 & _).
  rewrite resolve_limiter_run, Hnone, Hcls in Hres.
  assert ((if truthy rate_limit
           then init DefaultRateLimitedRequest rate_limit
           else Default_obj) = Default_obj) as Hobj
    by (destruct (truthy rate_limit); reflexivity).
  rewrite Hobj in Hres. injection Hres as <- <-.
  destruct (for_range_Default env (length (heap s)) method url kw retries
              (Z.to_nat retries) 0 (with_heap (heap s ++ [Default_obj]) s))
    as (res & s1 & evs & Hloop & Htr & Hrest).
  { simpl. apply list_lookup_middle. reflexivity. }
  exists res, s1, evs. split; [exact Hloop|]. simpl in Htr. auto.
Qed.

(** X4: [request] never writes the registry nor the strategy class of the
    client, so a limiter built from the [rate_limit] of a call is not
    remembered: the next call to the url resolves a new object. *)
Theorem request_never_registers (env : Env) (method url : string)
    (rate_limit : value) (retries : Z) (kw : kwargs) (s : State) :
  let s1 := snd (request env method url rate_limit retries kw s) in
  endpoint_limits s1 = endpoint_limits s /\
  rate_limit_strategy s1 = rate_limit_strategy s /\
  (endpoint_limits s !! url = None ->
   forall rate_limit', fst (resolve_limiter url rate_limit' s1) = Ok (length (heap s1))).
Proof.
  destruct (request_same_registry env method url rate_limit retries kw s)
    as [Hreg Hcls].
  simpl. split; [exact Hreg|]. split; [exact Hcls|].
  intros Hnone rate_limit'. rewrite resolve_limiter_run, Hreg, Hnone.
  reflexivity.
Qed.

(** X6: on a clock that never runs backwards, a call whose [retries >= 1]
    attempts all fail with a [RequestException] returns at least
    [2 ^ (retries - 1) - 1] time units after it was made. *)
Theorem request_exhausted_takes_total_backoff (env : Env) (method url : string)
    (rate_limit : value) (retries : Z) (kw : kwargs) (s : State) :
  (forall k, 0 <= lag env k)%Q ->
  1 <= retries ->
  request_well_typed s url rate_limit ->
  (forall i, (sent s <= i < sent s + Z.to_nat retries)%nat ->
     exists k, transport env i method url kw = Fails (RequestException k)) ->
  (now s + inject_Z (2 ^ (retries - 1) - 1)
     <= now (snd (request env method url rate_limit retries kw s)))%Q.
Proof.
  intros Hlag Hretries Hwt Hfail.
  destruct (request_elapses env method url rate_limit retries kw Hlag s)
    as (evs' & Htr' & Hpos & Htime).
  destruct (request_run env method url rate_limit retries kw s)
    as (l & s0 & Hres & Hreq & Htr0 & Hsent0 & _).
  destruct (resolve_limiter_ok _ _ _ _ _ Hwt Hres) as (Hok & _ & _).
  destruct (Z.to_nat retries) as [|n] eqn:En; [lia|].
  destruct (for_range_all_fail env l method url kw retries n 0 s0)
    as (e & s1 & evs & Hloop & _ & Htr & _ & _ & _ & Hbk).
  { lia. }
  { exact Hok. }
  { rewrite Hsent0. exact Hfail. }
  rewrite Hreq, Hloop in Htr', Htime |- *. simpl in *.
  rewrite Htr, Htr0 in Htr'. apply app_inv_head in Htr'. subst evs'.
  pose proof (backoffs_le_sleeps evs Hpos) as Hle.
  rewrite Hbk in Hle.
  pose proof (Qsum_backoff_schedule n 0 ltac:(lia)) as Hsum.
  replace (0 + Z.of_nat n) with (retries - 1) in Hsum by lia.
  change (2 ^ 0) with 1 in Hsum. lra.
Qed.

(** X7: on a clock that never runs backwards, a call with [retries >= 1]
    to a url registered with a [LastRequestRateLimitedRequest] of
    non-negative interval [limit] leaves that instance stamped at least
    [limit] after the stamp it found, whatever the transport did and
    whatever [rate_limit] the call passed. *)
Theorem registered_limiter_spaces_calls (env : Env) (method url : string)
    (rate_limit : value) (retries : Z) (kw : kwargs) (s : State)
    (l : loc) (rl : value) (t limit : Q) :
  (forall k, 0 <= lag env k)%Q ->
  1 <= retries ->
  endpoint_limits s !! url = Some l ->
  heap s !! l = Some (LastRequest_obj rl t) ->
  as_number rl = Some limit ->
  (0 <= limit)%Q ->
  exists res s1 t1,
    request env method url rate_limit retries kw s = (res, s1) /\
    heap s1 !! l = Some (LastRequest_obj rl t1) /\
    (t + limit <= t1)%Q.
Proof.
  intros Hlag Hretries Hreg Hl Hn Hlimit.
  destruct (request_run env method url rate_limit retries kw s)
    as (l' & s0 & Hres & -> & _).
  rewrite resolve_limiter_run, Hreg in Hres. injection Hres as <- <-.
  destruct (for_range_stamps env l method url kw retries rl limit
              (Z.to_nat retries) Hlag Hn Hlimit 0 s t Hl)
    as (res & s1 & t1 & Hloop & Hl1 & _ & Hgap).
  exists res, s1, t1. split; [exact Hloop|]. split; [exact Hl1|].
  apply Hgap. lia.
Qed.

(** X8: on a client built with [LastRequestRateLimitedRequest], the
    limiter a call builds from its own [rate_limit] starts with a stamp
    of zero: once the clock has passed the interval, the first attempt
    of the call [wait]s without sleeping and sends at once. *)
Theorem fresh_limiter_does_not_delay_first_attempt (env : Env)
    (method url : string) (rate_limit : value) (retries : Z) (kw : kwargs)
    (s : State) (limit : Q) :
  (forall k, 0 <= lag env k)%Q ->
  1 <= retries ->
  endpoint_limits s !! url = None ->
  rate_limit_strategy s = LastRequestRateLimitedRequest ->
  truthy rate_limit = true ->
  as_number rate_limit = Some limit ->
  (limit <= now s)%Q ->
  exists res s1 evs,
    request env method url rate_limit retries kw s = (res, s1) /\
    trace s1 = trace s ++
      EvWait (length (heap s)) :: EvSend (sent s) method url kw :: evs.
Proof.
  intros Hlag Hretries Hnone Hcls Htruthy Hnum Hdue.
  destruct (request_run env method url rate_limit retries kw s)
    as (l & s0 & Hres & -> & _).
  rewrite resolve_limiter_run, Hnone, Htruthy, Hcls in Hres.
  injection Hres as <- <-.
  destruct (Z.to_nat retries) as [|n] eqn:En; [lia|].
  destruct (LastRequest_wait_gap env
              (with_heap (heap s ++ [LastRequest_obj rate_limit 0]) s)
              (length (heap s)) rate_limit 0 limit Hlag)
    as (sw & Hw & _ & _ & _ & Htrw).
  { simpl. apply list_lookup_middle. reflexivity. }
  { exact Hnum. }
  simpl in Htrw. specialize (Htrw ltac:(lra)).
  destruct (attempt_after_wait env (length (heap s)) method url kw retries
              _ sw 0 Hw)
    as (r & s1 & tail & Hrun & Htr & Hcase & _).
  assert (sent sw = sent s) as Hsent.
  { destruct (wait_run env
                (with_heap (heap s ++ [LastRequest_obj rate_limit 0]) s)
                (length (heap s)))
      as (r' & s' & ws & Hw' & _ & _ & Hs' & _).
    rewrite Hw in Hw'. injection Hw' as _ <-. exact Hs'. }
  rewrite Hsent in Hcase. rewrite for_range_S, Hrun.
  destruct (for_range_run env (length (heap s)) method url kw retries n (0 + 1) s1)
    as (res & s2 & evs & Hloop & Htr2 & _).
  inversion Hcase as [r' Ht|e Ht Hlast|k Ht Hnot]; subst.
  - exists (Ok (Some r')), s1, []. split; [reflexivity|].
    rewrite Htr, Htrw, <- app_assoc. reflexivity.
  - exists (Raise e), s1, []. split; [reflexivity|].
    rewrite Htr, Htrw, <- app_assoc. reflexivity.
  - rewrite Hloop. eexists res, s2, (_ :: evs). split; [reflexivity|].
    rewrite Htr2, Htr, Htrw, <- !app_assoc. reflexivity.
Qed.

(** X9: however a call ends, it [wait]s at most [retries] times and sends
    at most once per [wait]; all its sends carry the method, url and
    keyword arguments of the call, numbered consecutively; its backoff
    sleeps are [1, 2, 4, ...] in this order, at most [retries - 1] of them
    and never more than there were sends. *)
Theorem request_attempts_are_bounded (env : Env) (method url : string)
    (rate_limit : value) (retries : Z) (kw : kwargs) (s : State) :
  exists res s1 evs,
    request env method url rate_limit retries kw s = (res, s1) /\
    trace s1 = trace s ++ evs /\
    sent s1 = (sent s + length (sends evs))%nat /\
    sends evs =
      List.map (fun j => EvSend (sent s + j) method url kw)
        (seq 0 (length (sends evs))) /\
    backoffs evs =
      List.map (fun j => inject_Z (2 ^ Z.of_nat j)) (seq 0 (length (backoffs evs))) /\
    (length (sends evs) <= length (waits evs) <= S (length (sends evs)))%nat /\
    (length (waits evs) <= Z.to_nat retries)%nat /\
    (length (backoffs evs) <= Z.to_nat retries - 1)%nat /\
    (length (backoffs evs) <= length (sends evs))%nat.
Proof.
  exact (request_counts env method url rate_limit retries kw s).
Qed.

(** X10: [get], [post], [put] and [delete] send nothing but requests of
    their own verb, to the url and with the keyword arguments they were
    given, retries included. *)
Theorem verbs_send_their_method (env : Env) (url : string)
    (rate_limit : value) (retries : Z) (kw : kwargs) (s : State) :
  carries "GET" url kw (get env url rate_limit retries kw) s /\
  carries "POST" url kw (post env url rate_limit retries kw) s /\
  carries "PUT" url kw (put env url rate_limit retries kw) s /\
  carries "DELETE" url kw (delete env url rate_limit retries kw) s.
Proof.
  assert (forall method,
            carries method url kw
              (request env method url rate_limit retries kw) s) as Hrequest.
  { intros method.
    destruct (request_counts env method url rate_limit retries kw s)
      as (res & s1 & evs & Hrun & Htr & Hsent & Hsends & _).
    exists res, s1, evs. auto. }
  unfold get, post, put, delete. auto.
Qed.

(** X11: on a clock that never runs backwards, a [wait] on an instance
    whose interval has already elapsed since its stamp (an interval of
    zero, for one) returns without sleeping, and still stamps the
    instance with the time it read last. *)
Theorem wait_does_not_sleep_when_due (env : Env) (s : State) (l : loc)
    (rl : value) (t limit : Q) :
  (forall k, 0 <= lag env k)%Q ->
  heap s !! l = Some (LastRequest_obj rl t) ->
  as_number rl = Some limit ->
  (limit <= now s - t)%Q ->
  exists s1,
    wait env l s = (Ok tt, s1) /\
    trace s1 = trace s ++ [EvWait l] /\
    heap s1 !! l = Some (LastRequest_obj rl (now s1)) /\
    (now s <= now s1)%Q.
Proof.
  intros Hlag Hl Hn Hdue.
  destruct (LastRequest_wait_gap env s l rl t limit Hlag Hl Hn)
    as (s1 & Hw & Hl1 & _ & Hmono & Htr).
  exists s1. auto.
Qed.

(** * The further theorems at concrete inputs *)

Lemma request_propagates_other_exceptions_witness :
  exists s1 evs,
    request broken_stack "GET" example_url VNone 3 [] registered_client
      = (Raise (OtherException "KeyboardInterrupt"), s1) /\
    trace s1 = trace registered_client ++ evs /\
    length (sends evs) = 1%nat /\
    backoffs evs = [] /\
    sent s1 = S (sent registered_client).
Proof.
  apply (request_propagates_other_exceptions broken_stack "GET" example_url
           VNone 3 [] registered_client (OtherException "KeyboardInterrupt")).
  - lia.
  - apply registered_client_well_typed.
  - reflexivity.
  - intros k. discriminate.
Defined.

Lemma request_raises_TypeError_before_sending_witness :
  exists s1,
    request always_up "GET" example_url (VRef 0%nat) 2 [] fresh_client
      = (Raise TypeError, s1) /\
    trace s1 = trace fresh_client ++ [EvWait (length (heap fresh_client))] /\
    sent s1 = sent fresh_client.
Proof.
  apply (request_raises_TypeError_before_sending always_up "GET" example_url
           (VRef 0%nat) 2 [] fresh_client).
  - lia.
  - reflexivity.
  - reflexivity.
  - reflexivity.
  - reflexivity.
Defined.

Lemma default_strategy_never_rate_limits_witness :
  exists res s1 evs,
    request always_down "GET" example_url (VInt 5) 2 [] default_client
      = (res, s1) /\
    trace s1 = trace default_client ++ evs /\
    Forall (fun e => ~ is_rate_sleep e) evs /\
    length (waits evs) = length (sends evs).
Proof.
  apply (default_strategy_never_rate_limits always_down "GET" example_url
           (VInt 5) 2 [] default_client).
  - reflexivity.
  - reflexivity.
Defined.

Lemma always_down_lag_nonneg : (forall k, 0 <= lag always_down k)%Q.
Proof. intros k. simpl. lra. Defined.

Lemma third_time_lucky_lag_nonneg : (forall k, 0 <= lag third_time_lucky k)%Q.
Proof. intros k. simpl. lra. Defined.

Lemma always_up_lag_nonneg : (forall k, 0 <= lag always_up k)%Q.
Proof. intros k. simpl. lra. Defined.

Lemma request_exhausted_takes_total_backoff_witness :
  (now registered_client + inject_Z (2 ^ (3 - 1) - 1)
     <= now (snd (request always_down "GET" example_url VNone 3 []
                    registered_client)))%Q.
Proof.
  apply (request_exhausted_takes_total_backoff always_down "GET" example_url
           VNone 3 [] registered_client).
  - apply always_down_lag_nonneg.
  - lia.
  - apply registered_client_well_typed.
  - intros i _. exists "ConnectionError"%string. reflexivity.
Defined.

Lemma registered_limiter_spaces_calls_witness :
  exists res s1 t1,
    request third_time_lucky "GET" example_url (VInt 7) 5 [] registered_client
      = (res, s1) /\
    heap s1 !! 0%nat = Some (LastRequest_obj (VInt 2) t1) /\
    (0 + 2 <= t1)%Q.
Proof.
  apply (registered_limiter_spaces_calls third_time_lucky "GET" example_url
           (VInt 7) 5 [] registered_client 0%nat (VInt 2) 0 2).
  - apply third_time_lucky_lag_nonneg.
  - lia.
  - reflexivity.
  - reflexivity.
  - reflexivity.
  - lra.
Defined.

Lemma fresh_limiter_does_not_delay_first_attempt_witness :
  exists res s1 evs,
    request always_up "GET" example_url (VInt 5) 1 [] fresh_client = (res, s1) /\
    trace s1 = trace fresh_client ++
      EvWait (length (heap fresh_client)) ::
      EvSend (sent fresh_client) "GET" example_url [] :: evs.
Proof.
  apply (fresh_limiter_does_not_delay_first_attempt always_up "GET" example_url
           (VInt 5) 1 [] fresh_client 5).
  - apply always_up_lag_nonneg.
  - lia.
  - reflexivity.
  - reflexivity.
  - reflexivity.
  - reflexivity.
  - simpl. lra.
Defined.

Lemma wait_does_not_sleep_when_due_witness :
  exists s1,
    wait always_down 0%nat registered_client = (Ok tt, s1) /\
    trace s1 = trace registered_client ++ [EvWait 0%nat] /\
    heap s1 !! 0%nat = Some (LastRequest_obj (VInt 2) (now s1)) /\
    (now registered_client <= now s1)%Q.
Proof.
  apply (wait_does_not_sleep_when_due always_down registered_client 0%nat
           (VInt 2) 0 2).
  - apply always_down_lag_nonneg.
  - reflexivity.
  - reflexivity.
  - simpl. lra.
Defined.
